(** * The ancestry tracker of fwdpy11_arg_example

    A shallow embedding of [ancestry_tracker.hpp]: the book-keeper that
    records nodes and edges during a forward simulation, hands them to
    msprime for simplification and cleans up afterwards.  Every member
    function of the C++ struct becomes a function on an explicit tracker
    record; the only operation with undefined behaviour,
    [finish_generation] on an empty [offspring_indexes], returns [None]. *)

From Stdlib Require Import ZArith List Bool Lia PrimFloat Sorted.
Import ListNotations.
Local Open Scope Z_scope.

(** ** Scalar types *)

(** Modelled from the spec: [integer_type] is [decltype(edge::parent)],
    and [edge.hpp], which fixes its width, is not part of the sources.
    The spec has identities and counters as integers; they are carried
    as mathematical integers, which is what the C++ operators compute
    for as long as their results are representable. *)
Definition integer_type := Z.

(** [lastN] is a [std::uint32_t]: every store into it reduces modulo
    [2^32]. *)
Definition to_uint32 (z : Z) : Z := z mod 2 ^ 32.

(** Modelled from the spec: [decltype(node::generation)] comes from
    [node.hpp], which is not part of the sources; the literals [0.0] and
    [-1.0] show a floating type.  Every time the tracker writes is a
    generation count, and the only arithmetic on times is the
    subtraction and the sign change of [prep_for_gc]; both are exact on
    integer-valued doubles, so a time is carried as the integer it
    denotes. *)
Definition time_type := Z.

(** Breakpoints are doubles that the tracker stores and never computes
    with. *)
Definition double := PrimFloat.float.

(** ** Nodes and edges *)

Module Node.
(** Modelled from the spec: [node.hpp] is not part of the sources.  A
    node is an integer id, a generation (its time) and an integer
    population label. *)
Record node : Type := mk {
  id : integer_type;
  generation : time_type;
  population : integer_type
}.
End Node.
Definition node : Type := Node.node.

Module Edge.
(** Modelled from the spec: [edge.hpp] is not part of the sources.  An
    edge is a left and a right breakpoint, a parent id and a child id. *)
Record edge : Type := mk {
  left : double;
  right : double;
  parent : integer_type;
  child : integer_type
}.
End Edge.
Definition edge : Type := Edge.edge.

(** Modelled from the spec: [make_node] lives in [node.hpp]; the call
    site documents its arguments as "ID, time, population". *)
Definition make_node (id : integer_type) (generation : time_type)
    (population : integer_type) : node :=
  Node.mk id generation population.

(** Modelled from the spec: [make_edge] lives in [edge.hpp]; its
    arguments are left, right, parent, child. *)
Definition make_edge (l r : double) (parent child : integer_type) : edge :=
  Edge.mk l r parent child.

(** ** The tracker *)

Record ancestry_tracker : Type := mk_tracker {
  nodes : list node;
  edges : list edge;
  temp : list edge;
  offspring_indexes : list integer_type;
  generation : integer_type;
  next_index : integer_type;
  first_parental_index : integer_type;
  lastN : Z;
  last_gc_time : time_type
}.

(** [n] consecutive integers from [a] on. *)
Fixpoint consecutive (a : Z) (n : nat) : list Z :=
  match n with
  | O => []
  | S n' => a :: consecutive (a + 1) n'
  end.

(** The values [0 .. n-1] taken by the loop variable of
    [for (integer_type i = 0; i < n; ++i)]; none when [n <= 0]. *)
Definition loop_range (n : integer_type) : list integer_type :=
  consecutive 0 (Z.to_nat n).

(** The constructor [ancestry_tracker(N)]. *)
Definition new_ancestry_tracker (N : integer_type) : ancestry_tracker :=
  {| nodes := map (fun i => make_node i 0 0) (loop_range (2 * N));
     edges := [];
     temp := [];
     offspring_indexes := [];
     generation := 1;
     next_index := 2 * N;
     first_parental_index := 0;
     lastN := to_uint32 N;
     last_gc_time := 0 |}.

(** [!did_swap] on an [int]. *)
Definition lnot (i : Z) : Z := if i =? 0 then 1 else 0.

(** [p] is a [std::uint32_t], [did_swap] an [int]. *)
Definition get_parent_ids (t : ancestry_tracker) (p : Z) (did_swap : Z)
    : integer_type * integer_type :=
  (first_parental_index t + 2 * p + did_swap,
   first_parental_index t + 2 * p + lnot did_swap).

(** Returns the pair and the tracker it leaves behind. *)
Definition get_next_indexes (t : ancestry_tracker)
    : (integer_type * integer_type) * ancestry_tracker :=
  let rv := (next_index t, next_index t + 1) in
  (rv,
   {| nodes := nodes t;
      edges := edges t;
      temp := temp t;
      offspring_indexes := (offspring_indexes t ++ [fst rv]) ++ [snd rv];
      generation := generation t;
      next_index := next_index t + 2;
      first_parental_index := first_parental_index t;
      lastN := lastN t;
      last_gc_time := last_gc_time t |}).

Definition add_edges (t : ancestry_tracker) (breakpoints : list (double * double))
    (parent child : integer_type) : ancestry_tracker :=
  {| nodes := nodes t;
     edges := edges t;
     temp := fold_left
               (fun tmp bi => tmp ++ [make_edge (fst bi) (snd bi) parent child])
               breakpoints (temp t);
     offspring_indexes := offspring_indexes t;
     generation := generation t;
     next_index := next_index t;
     first_parental_index := first_parental_index t;
     lastN := lastN t;
     last_gc_time := last_gc_time t |}.

(** [offspring_indexes.front()] is undefined on an empty vector: [None].
    Nothing here touches [offspring_indexes]; only [temp] is cleared. *)
Definition finish_generation (t : ancestry_tracker) : option ancestry_tracker :=
  match offspring_indexes t with
  | [] => None
  | front :: _ =>
      Some {| nodes := nodes t
                       ++ map (fun oi => make_node oi (generation t) 0)
                              (offspring_indexes t);
              edges := edges t ++ temp t;
              temp := [];
              offspring_indexes := offspring_indexes t;
              generation := generation t + 1;
              next_index := next_index t;
              first_parental_index := front;
              lastN := to_uint32 (next_index t - first_parental_index t);
              last_gc_time := last_gc_time t |}
  end.

(** [v.back()], when there is one. *)
Definition back {A : Type} (v : list A) : option A :=
  match v with
  | [] => None
  | x :: v' => Some (last v' x)
  end.

(** The body of the loop of [prep_for_gc]:
    [n.generation -= max_gen; n.generation *= -1.0]. *)
Definition to_backwards_time (max_gen : time_type) (n : node) : node :=
  Node.mk (Node.id n) ((Node.generation n - max_gen) * -1) (Node.population n).

Definition prep_for_gc (t : ancestry_tracker) : ancestry_tracker :=
  match back (nodes t) with
  | None => t
  | Some b =>
      let max_gen := Node.generation b in
      {| nodes := map (to_backwards_time max_gen) (nodes t);
         edges := edges t;
         temp := temp t;
         offspring_indexes := offspring_indexes t;
         generation := generation t;
         next_index := next_index t;
         first_parental_index := first_parental_index t;
         lastN := lastN t;
         last_gc_time := last_gc_time t |}
  end.

(** The tuple [t] of the C++ signature is the pair [(gc, idx)] of its
    two slots after their casts; [idx] is read only when [gc] holds. *)
Definition post_process_gc (t : ancestry_tracker) (gc : bool) (idx : integer_type)
    : ancestry_tracker :=
  if negb gc then t
  else
    {| nodes := [];
       edges := [];
       temp := temp t;
       offspring_indexes := offspring_indexes t;
       generation := generation t;
       next_index := idx;
       first_parental_index := 0;
       lastN := lastN t;
       last_gc_time := generation t |}.

(** ** Drivers

    What a simulation does to a tracker between its construction and any
    later moment: a sequence of calls.  [get_parent_ids] only reads and
    is left out. *)

Inductive call : Type :=
| GetNextIndexes
| AddEdges (breakpoints : list (double * double)) (parent child : integer_type)
| FinishGeneration
| PrepForGc
| PostProcessGc (gc : bool) (idx : integer_type).

(** One call: the tracker it leaves and the identities it returned. *)
Definition step (t : ancestry_tracker) (c : call)
    : option (ancestry_tracker * list integer_type) :=
  match c with
  | GetNextIndexes =>
      let '((a, b), t') := get_next_indexes t in Some (t', [a; b])
  | AddEdges bps parent child => Some (add_edges t bps parent child, [])
  | FinishGeneration =>
      match finish_generation t with
      | Some t' => Some (t', [])
      | None => None
      end
  | PrepForGc => Some (prep_for_gc t, [])
  | PostProcessGc gc idx => Some (post_process_gc t gc idx, [])
  end.

(** A sequence of calls, with all the identities returned on the way. *)
Fixpoint run (t : ancestry_tracker) (cs : list call)
    : option (ancestry_tracker * list integer_type) :=
  match cs with
  | [] => Some (t, [])
  | c :: cs' =>
      match step t c with
      | None => None
      | Some (t1, out1) =>
          match run t1 cs' with
          | None => None
          | Some (t2, out2) => Some (t2, out1 ++ out2)
          end
      end
  end.

(** The calls a driver makes while a generation is in progress. *)
Definition in_generation (c : call) : bool :=
  match c with
  | GetNextIndexes | AddEdges _ _ _ => true
  | _ => false
  end.

Definition is_allocation (c : call) : bool :=
  match c with
  | GetNextIndexes => true
  | _ => false
  end.

(** The number of [get_next_indexes] calls in a sequence. *)
Definition allocations (cs : list call) : nat :=
  length (filter is_allocation cs).

(** ** What a run has produced

    The tracker does not remember which generation an identity was
    allocated in.  A [history] follows a run from the outside and records
    it: the offspring of the generation in progress, those of the
    generation finished last, and what [offspring_indexes] held when each
    of the two began. *)








(** ** Times of a node store *)

(** The largest time in a store, when it has a node. *)
Definition max_generation (ns : list node) : option time_type :=
  match ns with
  | [] => None
  | n :: ns' =>
      Some (fold_left (fun m n' => Z.max m (Node.generation n')) ns'
                      (Node.generation n))
  end.

(** A node with its time replaced. *)
Definition with_time (n : node) (g : time_type) : node :=
  Node.mk (Node.id n) g (Node.population n).

(** Times run forward in a store: they never decrease along it and stay
    below the generation counter. *)
Definition forward (t : ancestry_tracker) : Prop :=
  StronglySorted Z.le (map Node.generation (nodes t)) /\
  Forall (fun n => Node.generation n < generation t) (nodes t).

Definition is_prep (c : call) : bool :=
  match c with
  | PrepForGc => true
  | _ => false
  end.

(** ** Scenarios used below *)

(** One diploid, one offspring pair. *)
Definition one_pair : ancestry_tracker :=
  snd (get_next_indexes (new_ancestry_tracker 1)).

(** The tracker a run leaves, or the one it started from when the run is
    undefined. *)
Definition after (t : ancestry_tracker) (cs : list call) : ancestry_tracker :=
  match run t cs with
  | Some (t', _) => t'
  | None => t
  end.

(** One diploid, one finished generation of one offspring. *)
Definition after_one_generation : ancestry_tracker :=
  after (new_ancestry_tracker 1) [GetNextIndexes; FinishGeneration].

(** The same, then a preparation that the simplifier declined. *)
Definition after_declined_simplification : ancestry_tracker :=
  after after_one_generation [PrepForGc; PostProcessGc false 0].

(** ** The body of [finish_generation], access by access

    [finish_generation] above gives the result of the call.  Here its
    body is written statement by statement over the element accesses of
    [std::vector], so that which elements are read, and whether each read
    is inside its vector, follows from the statements. *)

(** One element access: position [index] of a vector of [size] elements. *)
Inductive access : Type :=
| ElementAt (size index : nat).

Definition in_bounds (a : access) : bool :=
  match a with
  | ElementAt size index => (index <? size)%nat
  end.

(** A computation over vectors: the accesses it made, in order, and its
    value unless an access left its vector, after which nothing is
    defined. *)
Definition checked (A : Type) : Type := (list access * option A)%type.

Definition ret {A : Type} (a : A) : checked A := ([], Some a).

Definition bind {A B : Type} (c : checked A) (f : A -> checked B) : checked B :=
  match c with
  | (tr, None) => (tr, None)
  | (tr, Some a) => let (tr', r) := f a in (tr ++ tr', r)
  end.

Notation "x <- c ;; k" := (bind c (fun x => k))
  (at level 61, c at next level, right associativity).

(** Dereferencing the iterator at position [i]. *)
Definition vec_at {A : Type} (v : list A) (i : nat) : checked A :=
  ([ElementAt (length v) i], nth_error v i).

(** [v.front()] is [*v.begin()]. *)
Definition vec_front {A : Type} (v : list A) : checked A := vec_at v 0.

(** [n] more rounds of an iterator loop standing at position [i]: read
    the element, run the body, step. *)
Fixpoint for_each_from {A St : Type} (v : list A) (i n : nat)
    (body : A -> St -> St) (s : St) : checked St :=
  match n with
  | O => ret s
  | S n' => x <- vec_at v i ;; for_each_from v (S i) n' body (body x s)
  end.

(** [for (auto&& x : v) body] and the copy of [v.begin() .. v.end()]: the
    iterator runs from [begin] to [end], [size] rounds. *)
Definition range_for {A St : Type} (v : list A) (body : A -> St -> St) (s : St)
    : checked St :=
  for_each_from v 0 (length v) body s.

(** Lines 96 to 105: the loop over [offspring_indexes], the insertion of
    [temp] at the end of [edges], [lastN], the read of
    [offspring_indexes.front()], [temp.clear()] and the increment. *)
Definition finish_generation_body (t : ancestry_tracker)
    : checked ancestry_tracker :=
  nodes' <- range_for (offspring_indexes t)
              (fun oi ns => ns ++ [make_node oi (generation t) 0]) (nodes t) ;;
  edges' <- range_for (temp t) (fun e es => es ++ [e]) (edges t) ;;
  let lastN' := to_uint32 (next_index t - first_parental_index t) in
  front <- vec_front (offspring_indexes t) ;;
  ret {| nodes := nodes';
         edges := edges';
         temp := [];
         offspring_indexes := offspring_indexes t;
         generation := generation t + 1;
         next_index := next_index t;
         first_parental_index := front;
         lastN := lastN';
         last_gc_time := last_gc_time t |}.

(** The accesses of a loop over a vector of [n] elements. *)
Definition sweep (n : nat) : list access := map (ElementAt n) (seq 0 n).

(** ** Measures of a run *)

(** The edges one call stages, in the order [add_edges] builds them. *)
Definition staged_by (c : call) : list edge :=
  match c with
  | AddEdges breakpoints parent child =>
      map (fun bi => make_edge (fst bi) (snd bi) parent child) breakpoints
  | _ => []
  end.

(** All the edges a sequence of calls stages. *)
Definition staged (cs : list call) : list edge := flat_map staged_by cs.

Definition is_finish (c : call) : bool :=
  match c with
  | FinishGeneration => true
  | _ => false
  end.

(** The number of [finish_generation] calls in a sequence. *)
Definition finishes (cs : list call) : nat := length (filter is_finish cs).

(** A [post_process_gc] whose flag is true. *)
Definition is_reset (c : call) : bool :=
  match c with
  | PostProcessGc true _ => true
  | _ => false
  end.

(** Whether a sequence of calls allocates before it first finishes a
    generation (or never finishes one). *)
Fixpoint allocates_before_finish (cs : list call) : bool :=
  match cs with
  | [] => true
  | GetNextIndexes :: _ => true
  | FinishGeneration :: _ => false
  | _ :: cs' => allocates_before_finish cs'
  end.

(** Forward times, with their bounds: no time is negative, and the last
    node was written in the generation before the current one. *)
Definition forward_times (t : ancestry_tracker) : Prop :=
  forward t /\
  1 <= generation t /\
  Forall (fun n => 0 <= Node.generation n) (nodes t) /\
  (forall b, back (nodes t) = Some b -> Node.generation b = generation t - 1).

(** Every identity in the tracker was handed out already. *)
Definition allocated (t : ancestry_tracker) : Prop :=
  0 <= next_index t /\
  Forall (fun n => 0 <= Node.id n < next_index t) (nodes t) /\
  Forall (fun i => 0 <= i < next_index t) (offspring_indexes t).

(** A tracker with its node store replaced. *)
Definition with_nodes (t : ancestry_tracker) (ns : list node) : ancestry_tracker :=
  {| nodes := ns; edges := edges t; temp := temp t;
     offspring_indexes := offspring_indexes t;
     generation := generation t; next_index := next_index t;
     first_parental_index := first_parental_index t;
     lastN := lastN t; last_gc_time := last_gc_time t |}.

(** * Properties *)

(** ** Consecutive identities *)

Section Consecutive.

Lemma consecutive_length a n : length (consecutive a n) = n.
Proof. revert a; induction n; simpl; intros; [reflexivity | now rewrite IHn]. Qed.

Lemma consecutive_nth a n i :
  (i < n)%nat -> nth_error (consecutive a n) i = Some (a + Z.of_nat i).
Proof.
  revert a i; induction n as [|n IH]; intros a i Hi; [lia|].
  destruct i as [|i]; simpl.
  - f_equal; lia.
  - rewrite IH by lia. f_equal; lia.
Qed.

Lemma consecutive_lower a n : Forall (fun x => a <= x) (consecutive a n).
Proof.
  revert a; induction n as [|n IH]; intros a; simpl; constructor; [lia|].
  eapply Forall_impl; [|apply (IH (a + 1))]. simpl; intros; lia.
Qed.

Lemma consecutive_sorted a n : StronglySorted Z.lt (consecutive a n).
Proof.
  revert a; induction n as [|n IH]; intros a; simpl; constructor; [apply IH|].
  eapply Forall_impl; [|apply (consecutive_lower (a + 1) n)]. simpl; intros; lia.
Qed.

Lemma consecutive_app a n m :
  consecutive a (n + m) = consecutive a n ++ consecutive (a + Z.of_nat n) m.
Proof.
  revert a; induction n as [|n IH]; intros a; simpl.
  - f_equal; lia.
  - rewrite IH. do 3 f_equal. lia.
Qed.

Lemma sorted_nodup (l : list Z) : StronglySorted Z.lt l -> NoDup l.
Proof.
  induction 1 as [|x l Hs IH Hx]; constructor; [|exact IH].
  intros Hin. rewrite Forall_forall in Hx. specialize (Hx x Hin). lia.
Qed.

End Consecutive.

(** ** Construction *)

(** C7.  For every [N > 0], the tracker constructed for [N] holds exactly
    [2N] nodes; the node at position [i] has id [i], time 0 and
    population 0, so the ids are [0 .. 2N-1], ascending and distinct;
    [next_index] is [2N] and [first_parental_index] is 0. *)
Theorem new_ancestry_tracker_founders (N : integer_type) :
  0 < N ->
  let t := new_ancestry_tracker N in
  Z.of_nat (length (nodes t)) = 2 * N /\
  (forall i, 0 <= i < 2 * N ->
     nth_error (nodes t) (Z.to_nat i) = Some (Node.mk i 0 0)) /\
  StronglySorted Z.lt (map Node.id (nodes t)) /\
  NoDup (map Node.id (nodes t)) /\
  Forall (fun n => Node.generation n = 0 /\ Node.population n = 0) (nodes t) /\
  next_index t = 2 * N /\
  first_parental_index t = 0.
Proof.
  intros HN t.
  assert (Hids : map Node.id (nodes t) = loop_range (2 * N)).
  { unfold t, new_ancestry_tracker; cbn [nodes]. rewrite map_map.
    cbn [make_node Node.id]. apply map_id. }
  repeat split.
  - unfold t, new_ancestry_tracker; cbn [nodes]. rewrite length_map.
    unfold loop_range. rewrite consecutive_length. lia.
  - intros i Hi. unfold t, new_ancestry_tracker; cbn [nodes].
    rewrite nth_error_map. unfold loop_range.
    rewrite consecutive_nth by lia. cbn [option_map make_node].
    replace (0 + Z.of_nat (Z.to_nat i)) with i by lia. reflexivity.
  - rewrite Hids. apply consecutive_sorted.
  - rewrite Hids. apply sorted_nodup, consecutive_sorted.
  - unfold t, new_ancestry_tracker; cbn [nodes]. apply Forall_forall.
    intros n Hn. apply in_map_iff in Hn. destruct Hn as [i [<- _]].
    split; reflexivity.
Qed.

Lemma new_ancestry_tracker_founders_witness :
  0 < 3 /\
  Z.of_nat (length (nodes (new_ancestry_tracker 3))) = 6 /\
  next_index (new_ancestry_tracker 3) = 6.
Proof.
  split; [lia|].
  pose proof (new_ancestry_tracker_founders 3 ltac:(lia)) as H.
  cbv zeta in H. destruct H as [Hlen [_ [_ [_ [_ [Hnext _]]]]]].
  split; [exact Hlen | exact Hnext].
Defined.

(** ** Parent identities *)

(** C8.  For every ordinal [p] (so for every one within the parental
    window) and every boolean [swapped], [get_parent_ids] returns
    [first_parental_index + 2p + swapped] and
    [first_parental_index + 2p + !swapped]; the two identities differ,
    and the other value of [swapped] returns the same two in the other
    order. *)
Theorem get_parent_ids_swap (t : ancestry_tracker) (p : Z) (swapped : bool) :
  let a := first_parental_index t + 2 * p in
  get_parent_ids t p (Z.b2z swapped)
    = (a + Z.b2z swapped, a + Z.b2z (negb swapped)) /\
  fst (get_parent_ids t p (Z.b2z swapped))
    <> snd (get_parent_ids t p (Z.b2z swapped)) /\
  get_parent_ids t p (Z.b2z (negb swapped))
    = (snd (get_parent_ids t p (Z.b2z swapped)),
       fst (get_parent_ids t p (Z.b2z swapped))) /\
  (forall x, x = fst (get_parent_ids t p (Z.b2z swapped))
             \/ x = snd (get_parent_ids t p (Z.b2z swapped))
             <-> x = a \/ x = a + 1).
Proof.
  unfold get_parent_ids, lnot.
  destruct swapped; cbn [Z.b2z negb Z.eqb fst snd]; repeat split;
    try lia; intros; lia.
Qed.

(** ** Finishing a generation *)

Lemma finish_generation_nonempty (t : ancestry_tracker) :
  offspring_indexes t <> [] ->
  exists front rest,
    offspring_indexes t = front :: rest /\
    finish_generation t =
      Some {| nodes := nodes t
                       ++ map (fun oi => make_node oi (generation t) 0)
                              (offspring_indexes t);
              edges := edges t ++ temp t;
              temp := [];
              offspring_indexes := offspring_indexes t;
              generation := generation t + 1;
              next_index := next_index t;
              first_parental_index := front;
              lastN := to_uint32 (next_index t - first_parental_index t);
              last_gc_time := last_gc_time t |}.
Proof.
  intros Hne. unfold finish_generation.
  destruct (offspring_indexes t) as [|front rest]; [contradiction|].
  exists front, rest. split; reflexivity.
Qed.

Lemma finish_generation_some (t t' : ancestry_tracker) :
  finish_generation t = Some t' ->
  nodes t' = nodes t ++ map (fun oi => make_node oi (generation t) 0)
                            (offspring_indexes t) /\
  generation t' = generation t + 1.
Proof.
  intros Hfin. assert (Hne : offspring_indexes t <> []).
  { intros He. unfold finish_generation in Hfin. rewrite He in Hfin. discriminate. }
  destruct (finish_generation_nonempty t Hne) as [f [r [_ Heq]]].
  rewrite Heq in Hfin. injection Hfin as <-. split; reflexivity.
Qed.

Lemma finish_generation_lists (t : ancestry_tracker) :
  (forall t', finish_generation t = Some t' ->
     offspring_indexes t' = offspring_indexes t) /\
  (forall t', finish_generation t = Some t' -> temp t' = []).
Proof.
  unfold finish_generation. destruct (offspring_indexes t) as [|f r].
  - split; discriminate.
  - split; intros t' [= <-]; reflexivity.
Qed.

(** C1, as the code has it.  After [finish_generation] on a non-empty
    offspring-identity list the edge staging buffer is empty, and the
    offspring-identity list is what it was before the call: the call
    leaves it for the simplifier, which takes it as its samples. *)
Theorem finish_generation_clears_temp_only (t : ancestry_tracker) :
  offspring_indexes t <> [] ->
  exists t',
    finish_generation t = Some t' /\
    temp t' = [] /\
    offspring_indexes t' = offspring_indexes t.
Proof.
  intros Hne. destruct (finish_generation_nonempty t Hne) as [f [r [_ ->]]].
  eexists; split; [reflexivity|]. split; reflexivity.
Qed.

Lemma finish_generation_clears_temp_only_witness :
  offspring_indexes one_pair <> [] /\
  exists t',
    finish_generation one_pair = Some t' /\
    temp t' = [] /\
    offspring_indexes t' = offspring_indexes one_pair.
Proof.
  assert (Hne : offspring_indexes one_pair <> []) by (vm_compute; discriminate).
  split; [exact Hne|].
  exact (finish_generation_clears_temp_only one_pair Hne).
Defined.

(** C1 fails as stated: with one offspring pair allocated after
    construction for one diploid, [finish_generation] returns a tracker
    whose offspring-identity list still holds the two identities. *)
Lemma finish_generation_keeps_offspring_indexes :
  offspring_indexes one_pair <> [] /\
  exists t',
    finish_generation one_pair = Some t' /\
    offspring_indexes t' = [2; 3] /\
    ~ (offspring_indexes t' = [] /\ temp t' = []).
Proof.
  split; [vm_compute; discriminate|].
  eexists; split; [vm_compute; reflexivity|].
  split; [reflexivity|]. intros [H _]. discriminate H.
Qed.

Section Accesses.

Context {A St : Type}.

Lemma for_each_from_spec (body : A -> St -> St) (rest : list A) :
  forall (pre : list A) (s : St),
    for_each_from (pre ++ rest) (length pre) (length rest) body s
    = (map (ElementAt (length (pre ++ rest))) (seq (length pre) (length rest)),
       Some (fold_left (fun s' x => body x s') rest s)).
Proof.
  induction rest as [|x rest IH]; intros pre s; [reflexivity|].
  cbn [length for_each_from seq map fold_left]. unfold vec_at, bind.
  rewrite nth_error_app2, Nat.sub_diag by lia. cbn [nth_error].
  specialize (IH (pre ++ [x]) (body x s)).
  rewrite <- app_assoc, length_app in IH. cbn [app length] in IH.
  rewrite Nat.add_1_r in IH. rewrite IH. reflexivity.
Qed.

(** A loop over a vector reads each of its positions once, in order, and
    folds the body over its elements. *)
Lemma range_for_spec (body : A -> St -> St) (v : list A) (s : St) :
  range_for v body s
  = (sweep (length v), Some (fold_left (fun s' x => body x s') v s)).
Proof. exact (for_each_from_spec body v [] s). Qed.

End Accesses.

Lemma fold_left_snoc {A B : Type} (f : A -> B) (l : list A) :
  forall acc, fold_left (fun acc' x => acc' ++ [f x]) l acc = acc ++ map f l.
Proof.
  induction l as [|x l IH]; intros acc; cbn [fold_left map].
  - now rewrite app_nil_r.
  - rewrite IH, <- app_assoc. reflexivity.
Qed.

Lemma sweep_in_bounds (n : nat) : forallb in_bounds (sweep n) = true.
Proof.
  apply forallb_forall. intros a Ha. unfold sweep in Ha.
  apply in_map_iff in Ha. destruct Ha as [i [<- Hi]]. apply in_seq in Hi.
  cbn [in_bounds]. apply Nat.ltb_lt. lia.
Qed.

(** What the body does, whatever the tracker: it sweeps
    [offspring_indexes], sweeps [temp], then reads position 0 of
    [offspring_indexes]. *)
Lemma finish_generation_body_spec (t : ancestry_tracker) :
  fst (finish_generation_body t)
    = sweep (length (offspring_indexes t)) ++ sweep (length (temp t))
      ++ [ElementAt (length (offspring_indexes t)) 0] /\
  snd (finish_generation_body t) = finish_generation t.
Proof.
  unfold finish_generation_body, finish_generation.
  rewrite !range_for_spec. unfold bind, vec_front, vec_at, ret.
  rewrite (fold_left_snoc (fun oi => make_node oi (generation t) 0)).
  rewrite (fold_left_snoc (fun e : edge => e)), map_id.
  destruct (offspring_indexes t) as [|front rest]; cbn [nth_error fst snd].
  - split; reflexivity.
  - split; [|reflexivity]. now rewrite app_nil_r.
Qed.

(** C9.  With a non-empty offspring-identity list every element access
    that the body of [finish_generation] makes is inside its vector, the
    read of the list's first element among them, and the call returns a
    tracker.  With an empty list the two loops still stay inside their
    vectors, the read of the first element is the one access outside,
    and the call has no defined result. *)
Theorem finish_generation_accesses (t : ancestry_tracker) :
  (offspring_indexes t <> [] ->
   forallb in_bounds (fst (finish_generation_body t)) = true /\
   In (ElementAt (length (offspring_indexes t)) 0)
      (fst (finish_generation_body t)) /\
   exists t', snd (finish_generation_body t) = Some t' /\
              finish_generation t = Some t') /\
  (offspring_indexes t = [] ->
   exists tr,
     fst (finish_generation_body t) = tr ++ [ElementAt 0 0] /\
     forallb in_bounds tr = true /\
     in_bounds (ElementAt 0 0) = false /\
     snd (finish_generation_body t) = None /\
     finish_generation t = None).
Proof.
  destruct (finish_generation_body_spec t) as [Htrace Hresult].
  split.
  - intros Hne. rewrite Htrace, Hresult. split; [|split].
    + rewrite !forallb_app, !sweep_in_bounds. cbn [forallb in_bounds andb].
      destruct (offspring_indexes t); [contradiction | reflexivity].
    + apply in_or_app; right. apply in_or_app; right. now left.
    + destruct (finish_generation_nonempty t Hne) as [f [r [_ Hfin]]].
      rewrite Hfin. eexists. split; reflexivity.
  - intros He. rewrite Htrace, Hresult, He. cbn [length sweep seq map app].
    exists (sweep (length (temp t))). split; [reflexivity|].
    split; [apply sweep_in_bounds|]. split; [reflexivity|].
    unfold finish_generation. rewrite He. split; reflexivity.
Qed.

Lemma finish_generation_accesses_witness :
  offspring_indexes one_pair <> [] /\
  offspring_indexes (new_ancestry_tracker 1) = [] /\
  fst (finish_generation_body one_pair)
    = [ElementAt 2 0; ElementAt 2 1; ElementAt 2 0] /\
  forallb in_bounds (fst (finish_generation_body one_pair)) = true /\
  (exists tr,
     fst (finish_generation_body (new_ancestry_tracker 1)) = tr ++ [ElementAt 0 0] /\
     forallb in_bounds tr = true /\
     in_bounds (ElementAt 0 0) = false /\
     snd (finish_generation_body (new_ancestry_tracker 1)) = None /\
     finish_generation (new_ancestry_tracker 1) = None).
Proof.
  assert (Hne : offspring_indexes one_pair <> []) by (vm_compute; discriminate).
  assert (He : offspring_indexes (new_ancestry_tracker 1) = []) by reflexivity.
  split; [exact Hne|]. split; [exact He|]. split; [reflexivity|]. split.
  - exact (proj1 (proj1 (finish_generation_accesses one_pair) Hne)).
  - exact (proj2 (finish_generation_accesses (new_ancestry_tracker 1)) He).
Defined.

(** ** Absorbing a simplification *)

(** C5.  After [post_process_gc] with a true flag and index [X], the node
    store and the edge store are empty, [next_index] is [X],
    [first_parental_index] is 0 and [last_gc_time] is the generation
    counter of the call. *)
Theorem post_process_gc_resets (t : ancestry_tracker) (X : integer_type) :
  let t' := post_process_gc t true X in
  nodes t' = [] /\
  edges t' = [] /\
  next_index t' = X /\
  first_parental_index t' = 0 /\
  last_gc_time t' = generation t.
Proof. cbv zeta. unfold post_process_gc. cbn. repeat split. Qed.

(** C6.  With a false flag, [post_process_gc] returns the tracker it was
    given, whatever the tracker and whatever the index slot holds; a run
    that starts with such a call is the run without it. *)
Theorem post_process_gc_not_simplified (t : ancestry_tracker) (idx : integer_type) :
  post_process_gc t false idx = t /\
  forall cs, run t (PostProcessGc false idx :: cs) = run t cs.
Proof.
  split; [reflexivity|].
  intros cs. cbn [run step post_process_gc negb].
  destruct (run t cs) as [[t' out]|]; reflexivity.
Qed.

(** C10.  With a true flag, [post_process_gc] leaves the edge staging
    buffer, the offspring-identity list, the generation counter and
    [lastN] as they were; the returned tracker is the given one with the
    node store, the edge store, [next_index], [first_parental_index] and
    [last_gc_time] replaced. *)
Theorem post_process_gc_frame (t : ancestry_tracker) (X : integer_type) :
  let t' := post_process_gc t true X in
  temp t' = temp t /\
  offspring_indexes t' = offspring_indexes t /\
  generation t' = generation t /\
  lastN t' = lastN t /\
  t' = {| nodes := nodes t'; edges := edges t'; temp := temp t;
          offspring_indexes := offspring_indexes t;
          generation := generation t;
          next_index := next_index t';
          first_parental_index := first_parental_index t';
          lastN := lastN t;
          last_gc_time := last_gc_time t' |}.
Proof. cbv zeta. unfold post_process_gc. cbn. repeat split. Qed.

(** ** Allocating offspring *)

Lemma consecutive_pair (a : Z) (k : nat) :
  consecutive a (2 * S k) = a :: a + 1 :: consecutive (a + 2) (2 * k).
Proof.
  replace (2 * S k)%nat with (2 + 2 * k)%nat by lia.
  rewrite consecutive_app. reflexivity.
Qed.

(** The calls of a generation in progress: what they return and what they
    leave. *)
Lemma run_in_generation (cs : list call) :
  forall t, forallb in_generation cs = true ->
  exists t1,
    run t cs = Some (t1, consecutive (next_index t) (2 * allocations cs)) /\
    nodes t1 = nodes t /\
    edges t1 = edges t /\
    generation t1 = generation t /\
    offspring_indexes t1
      = offspring_indexes t ++ consecutive (next_index t) (2 * allocations cs) /\
    next_index t1 = next_index t + 2 * Z.of_nat (allocations cs) /\
    first_parental_index t1 = first_parental_index t.
Proof.
  induction cs as [|c cs IH]; intros t Hcs.
  - exists t. cbn. rewrite app_nil_r. repeat split. lia.
  - cbn [forallb] in Hcs. apply andb_prop in Hcs. destruct Hcs as [Hc Hcs].
    destruct c; try discriminate Hc.
    + destruct (IH (snd (get_next_indexes t)) Hcs)
        as [t1 [Hrun [Hn [He [Hg [Ho [Hx Hf]]]]]]].
      exists t1. cbn [get_next_indexes snd fst next_index nodes edges generation
                       offspring_indexes first_parental_index] in *.
      change (allocations (GetNextIndexes :: cs)) with (S (allocations cs)).
      rewrite consecutive_pair. cbn [run step get_next_indexes fst snd].
      rewrite Hrun. repeat split; try assumption.
      * rewrite Ho. rewrite <- !app_assoc. reflexivity.
      * rewrite Hx. lia.
    + destruct (IH (add_edges t breakpoints parent child) Hcs)
        as [t1 [Hrun [Hn [He [Hg [Ho [Hx Hf]]]]]]].
      exists t1. cbn [add_edges next_index nodes edges generation
                       offspring_indexes first_parental_index] in *.
      change (allocations (AddEdges breakpoints parent child :: cs))
        with (allocations cs).
      cbn [run step]. rewrite Hrun. repeat split; assumption.
Qed.




(** ** The anchor of the parental window *)

(** No call empties the offspring-identity list. *)
Lemma offspring_indexes_grow (t t' : ancestry_tracker) (c : call)
    (out : list integer_type) :
  step t c = Some (t', out) ->
  offspring_indexes t' = offspring_indexes t ++ out.
Proof.
  destruct c as [| bps parent child | | | gc idx]; cbn [step]; intros Hstep.
  - injection Hstep as <- <-. cbn. now rewrite <- app_assoc.
  - injection Hstep as <- <-. cbn. now rewrite app_nil_r.
  - destruct (finish_generation_lists t) as [Hsome _].
    destruct (finish_generation t) as [t1|] eqn:Hfin; [|discriminate].
    injection Hstep as <- <-. rewrite app_nil_r. now apply Hsome.
  - injection Hstep as <- <-. rewrite app_nil_r.
    unfold prep_for_gc. now destruct (back (nodes t)).
  - injection Hstep as <- <-. rewrite app_nil_r. now destruct gc.
Qed.








(** ** Preparing for simplification *)

Section Times.

Lemma fold_max_bounds (ns : list node) (m0 : Z) :
  let m := fold_left (fun m n => Z.max m (Node.generation n)) ns m0 in
  m0 <= m /\ Forall (fun n => Node.generation n <= m) ns /\
  (m = m0 \/ exists n, In n ns /\ Node.generation n = m).
Proof.
  revert m0; induction ns as [|n ns IH]; intros m0; cbn [fold_left].
  - repeat split; [lia | constructor | now left].
  - pose proof (IH (Z.max m0 (Node.generation n))) as H.
    cbv zeta in *. destruct H as [Hle [Hall Hatt]].
    split; [lia|]. split.
    + constructor; [lia | exact Hall].
    + destruct Hatt as [Heq | [n' [Hin Hn']]].
      * destruct (Z.max_spec m0 (Node.generation n)) as [[_ Hm] | [_ Hm]].
        -- right. exists n. split; [now left | lia].
        -- left. lia.
      * right. exists n'. split; [now right | exact Hn'].
Qed.

Lemma max_generation_is_max (ns : list node) (m : Z) :
  max_generation ns = Some m ->
  Forall (fun n => Node.generation n <= m) ns /\ exists n, In n ns /\ Node.generation n = m.
Proof.
  destruct ns as [|n0 ns]; [discriminate|]. cbn [max_generation].
  intros [= <-].
  pose proof (fold_max_bounds ns (Node.generation n0)) as H.
  cbv zeta in H. destruct H as [Hle [Hall Hatt]]. split.
  - constructor; assumption.
  - destruct Hatt as [Heq | [n' [Hin Hn']]].
    + exists n0. split; [now left | now rewrite Heq].
    + exists n'. split; [now right | exact Hn'].
Qed.

Lemma last_cons_default {A : Type} (v : list A) :
  forall x y, last (y :: v) x = last v y.
Proof.
  induction v as [|z v IH]; intros x y; [reflexivity|].
  change (last (y :: z :: v) x) with (last (z :: v) x).
  now rewrite !IH.
Qed.

Lemma back_in {A : Type} (v : list A) (b : A) : back v = Some b -> In b v.
Proof.
  destruct v as [|x v]; [discriminate|]. cbn [back]. intros [= <-].
  induction v as [|y v IH]; [now left|].
  destruct v as [|z v]; [right; now left|].
  change (last (y :: z :: v) x) with (last (z :: v) x).
  destruct IH as [IH | IH]; [now left | right; now right].
Qed.

(** When the last node is as late as any, its time is the maximum. *)
Lemma back_is_max (ns : list node) (b : node) (m : Z) :
  back ns = Some b -> max_generation ns = Some m ->
  Forall (fun n => Node.generation n <= Node.generation b) ns -> Node.generation b = m.
Proof.
  intros Hb Hm Hall.
  destruct (max_generation_is_max ns m Hm) as [Hup [n [Hin Hn]]].
  rewrite Forall_forall in Hall, Hup.
  specialize (Hall n Hin). specialize (Hup b (back_in _ _ Hb)). lia.
Qed.

End Times.

(** C4, as the code has it.  On a non-empty node store one call to
    [prep_for_gc] gives every node the negation of (its time minus the
    time of the last node of the store), keeping ids, populations and
    order; when no node is later than the last one this is the negation
    of (its time minus the maximum over the store).  The edge store, the
    generation counter, the identity counters and every other field are
    as they were. *)
Theorem prep_for_gc_backwards_time (t : ancestry_tracker) :
  nodes t <> [] ->
  exists b m,
    back (nodes t) = Some b /\
    max_generation (nodes t) = Some m /\
    nodes (prep_for_gc t)
      = map (fun n => with_time n (- (Node.generation n - Node.generation b)))
            (nodes t) /\
    (Forall (fun n => Node.generation n <= Node.generation b) (nodes t) ->
       nodes (prep_for_gc t)
         = map (fun n => with_time n (- (Node.generation n - m))) (nodes t)) /\
    edges (prep_for_gc t) = edges t /\
    generation (prep_for_gc t) = generation t /\
    next_index (prep_for_gc t) = next_index t /\
    first_parental_index (prep_for_gc t) = first_parental_index t /\
    prep_for_gc t
      = {| nodes := nodes (prep_for_gc t); edges := edges t; temp := temp t;
           offspring_indexes := offspring_indexes t;
           generation := generation t; next_index := next_index t;
           first_parental_index := first_parental_index t;
           lastN := lastN t; last_gc_time := last_gc_time t |}.
Proof.
  intros Hne.
  destruct (back (nodes t)) as [b|] eqn:Hb;
    [|destruct (nodes t); [contradiction | discriminate]].
  destruct (max_generation (nodes t)) as [m|] eqn:Hm;
    [|destruct (nodes t); [contradiction | discriminate]].
  exists b, m. split; [reflexivity|]. split; [reflexivity|].
  assert (Hnodes : nodes (prep_for_gc t)
            = map (fun n => with_time n (- (Node.generation n - Node.generation b)))
                  (nodes t)).
  { unfold prep_for_gc. rewrite Hb. cbn [nodes]. apply map_ext. intros n.
    unfold to_backwards_time, with_time. f_equal. lia. }
  split; [exact Hnodes|]. split.
  { intros Hlast. rewrite Hnodes.
    now rewrite (back_is_max _ _ _ Hb Hm Hlast). }
  unfold prep_for_gc. rewrite Hb. cbn. repeat split.
Qed.

Lemma prep_for_gc_backwards_time_witness :
  nodes after_one_generation <> [] /\
  exists b,
    back (nodes after_one_generation) = Some b /\
    Forall (fun n => Node.generation n <= Node.generation b)
           (nodes after_one_generation) /\
    max_generation (nodes after_one_generation) = Some 1 /\
    nodes (prep_for_gc after_one_generation)
      = map (fun n => with_time n (- (Node.generation n - 1)))
            (nodes after_one_generation).
Proof.
  assert (Hne : nodes after_one_generation <> []) by (vm_compute; discriminate).
  split; [exact Hne|].
  destruct (prep_for_gc_backwards_time after_one_generation Hne)
    as [b [m [Hb [Hm [_ [Hmax _]]]]]].
  vm_compute in Hb. injection Hb as <-.
  vm_compute in Hm. injection Hm as <-.
  eexists. split; [vm_compute; reflexivity|].
  assert (Hlast : Forall (fun n => Node.generation n <= 1)
                         (nodes after_one_generation)).
  { vm_compute. repeat constructor; discriminate. }
  split; [exact Hlast|]. split; [reflexivity|].
  exact (Hmax Hlast).
Defined.

(** C4 fails as stated on a store that was prepared once already: after a
    declined simplification the times are 1, 1, 0, 0, the maximum is 1
    and the last node has time 0, so a second [prep_for_gc] negates every
    time instead of subtracting the maximum first. *)
Lemma prep_for_gc_twice_not_max :
  map Node.generation (nodes after_declined_simplification) = [1; 1; 0; 0] /\
  max_generation (nodes after_declined_simplification) = Some 1 /\
  map Node.generation (nodes (prep_for_gc after_declined_simplification))
    = [-1; -1; 0; 0] /\
  map (fun n => - (Node.generation n - 1)) (nodes after_declined_simplification)
    = [0; 0; 1; 1] /\
  nodes (prep_for_gc after_declined_simplification)
    <> map (fun n => with_time n (- (Node.generation n - 1)))
           (nodes after_declined_simplification).
Proof.
  repeat split; try reflexivity. vm_compute. discriminate.
Qed.

(** ** Forward time

    Why the last node is the latest in the stores the tracker builds
    itself: until a preparation rewrites them, times never decrease along
    a store and stay below the generation counter. *)

Section Forward.

Lemma sorted_app (l1 l2 : list Z) :
  StronglySorted Z.le l1 -> StronglySorted Z.le l2 ->
  (forall x y, In x l1 -> In y l2 -> x <= y) ->
  StronglySorted Z.le (l1 ++ l2).
Proof.
  intros H1 H2 Hcross. induction H1 as [|x l1 Hs IH Hx]; [exact H2|].
  cbn [app]. constructor.
  - apply IH. intros a b Ha Hb. apply Hcross; [now right | exact Hb].
  - apply Forall_app. split; [exact Hx|].
    apply Forall_forall. intros y Hy. apply Hcross; [now left | exact Hy].
Qed.

Lemma sorted_constant (g : Z) (l : list Z) :
  Forall (fun x => x = g) l -> StronglySorted Z.le l.
Proof.
  induction 1 as [|x l Hx Hl IH]; constructor; [exact IH|].
  eapply Forall_impl; [|exact Hl]. cbv beta. intros; lia.
Qed.

Lemma forward_new (N : integer_type) : forward (new_ancestry_tracker N).
Proof.
  unfold forward, new_ancestry_tracker; cbn [nodes generation]. split.
  - apply (sorted_constant 0). rewrite map_map. apply Forall_forall.
    intros x Hx. apply in_map_iff in Hx. now destruct Hx as [i [<- _]].
  - apply Forall_forall. intros n Hn. apply in_map_iff in Hn.
    destruct Hn as [i [<- _]]. cbn. lia.
Qed.

Lemma forward_reset (t : ancestry_tracker) (X : integer_type) :
  forward (post_process_gc t true X).
Proof. split; constructor. Qed.

Lemma forward_step (t t' : ancestry_tracker) (c : call) (out : list integer_type) :
  forward t -> is_prep c = false -> step t c = Some (t', out) -> forward t'.
Proof.
  intros [Hs Hb] Hc Hstep.
  destruct c as [| bps parent child | | | gc idx]; cbn [step] in Hstep;
    try discriminate Hc.
  - injection Hstep as <- <-. split; assumption.
  - injection Hstep as <- <-. split; assumption.
  - destruct (finish_generation t) as [t1|] eqn:Hfin; [|discriminate].
    injection Hstep as <- <-.
    destruct (finish_generation_some _ _ Hfin) as [Hnodes Hgen].
    unfold forward. rewrite Hnodes, Hgen.
    rewrite Forall_forall in Hb. split.
    + rewrite map_app. apply sorted_app; [exact Hs | |].
      * apply (sorted_constant (generation t)). rewrite map_map.
        apply Forall_forall. intros x Hx. apply in_map_iff in Hx.
        now destruct Hx as [i [<- _]].
      * intros x y Hx Hy. apply in_map_iff in Hx. destruct Hx as [n [<- Hn]].
        rewrite map_map in Hy. apply in_map_iff in Hy.
        destruct Hy as [i [<- _]]. cbn. specialize (Hb n Hn). lia.
    + apply Forall_app. split; apply Forall_forall; intros n Hn.
      * specialize (Hb n Hn). lia.
      * apply in_map_iff in Hn. destruct Hn as [i [<- _]]. cbn. lia.
  - injection Hstep as <- <-. destruct gc; [apply forward_reset|].
    split; assumption.
Qed.

(** A run without preparation keeps times forward. *)
Lemma forward_run (cs : list call) :
  forall t t' out,
    forward t -> existsb is_prep cs = false ->
    run t cs = Some (t', out) -> forward t'.
Proof.
  induction cs as [|c cs IH]; intros t t' out Hf Hnp Hrun; cbn [run] in Hrun.
  - now injection Hrun as <- <-.
  - cbn [existsb] in Hnp. apply orb_false_elim in Hnp. destruct Hnp as [Hc Hcs].
    destruct (step t c) as [[t1 out1]|] eqn:Hstep; [|discriminate].
    destruct (run t1 cs) as [[t2 out2]|] eqn:Hrest; [|discriminate].
    injection Hrun as <- <-.
    eapply IH; [| exact Hcs | exact Hrest].
    eapply forward_step; eassumption.
Qed.

(** In a forward store no node is later than the last one. *)
Lemma forward_back (t : ancestry_tracker) (b : node) :
  forward t -> back (nodes t) = Some b ->
  Forall (fun n => Node.generation n <= Node.generation b) (nodes t).
Proof.
  intros [Hs _]. revert b.
  induction (nodes t) as [|x v IH]; intros b Hb; [constructor|].
  cbn [map] in Hs. inversion Hs as [|? ? Hs' Hx]; subst.
  destruct v as [|y v].
  - cbn in Hb. injection Hb as <-. constructor; [lia | constructor].
  - assert (Hb' : back (y :: v) = Some b).
    { cbn [back] in *. now rewrite <- (last_cons_default v x y). }
    specialize (IH Hs' b Hb').
    constructor; [|exact IH].
    rewrite Forall_forall in Hx. apply Hx. apply in_map. now apply back_in.
Qed.

End Forward.

(** ** A first generation of ten

    Ten diploids; every offspring takes a pair of identities, three
    transmissions stage five edges between them. *)

Example first_generation_of_ten :
  let mating := [GetNextIndexes;
                 AddEdges [(0%float, 0.5%float); (0.5%float, 1%float)] 0 20;
                 AddEdges [(0%float, 0.5%float); (0.5%float, 1%float)] 3 21]
                ++ repeat GetNextIndexes 8
                ++ [AddEdges [(0%float, 1%float)] 5 38; GetNextIndexes] in
  exists t,
    run (new_ancestry_tracker 10) (mating ++ [FinishGeneration])
      = Some (t, consecutive 20 20) /\
    length (nodes t) = 40%nat /\
    map Node.generation (skipn 20 (nodes t)) = repeat 1 20 /\
    length (edges t) = 5%nat /\
    temp t = [] /\
    next_index t = 40 /\
    first_parental_index t = 20 /\
    lastN t = 40 /\
    generation t = 2.
Proof.
  cbv zeta. eexists. split; [vm_compute; reflexivity|]. repeat split.
Qed.

(** * Further properties of the tracker *)

(** ** Staging edges *)

Lemma emplace_all (parent child : integer_type) (bps : list (double * double)) :
  forall tmp,
    fold_left (fun tmp bi => tmp ++ [make_edge (fst bi) (snd bi) parent child])
              bps tmp
    = tmp ++ map (fun bi => make_edge (fst bi) (snd bi) parent child) bps.
Proof.
  induction bps as [|bi bps IH]; intros tmp; cbn [fold_left map].
  - now rewrite app_nil_r.
  - rewrite IH, <- app_assoc. reflexivity.
Qed.

(** X1.  [add_edges] appends to the staging buffer one edge per
    breakpoint interval, in the order given, each from [parent] to
    [child] with the interval's two ends; what was staged before stays in
    front, the permanent edge store and every other field are untouched,
    and an empty list of breakpoints stages nothing. *)
Theorem add_edges_appends (t : ancestry_tracker) (bps : list (double * double))
    (parent child : integer_type) :
  let t' := add_edges t bps parent child in
  temp t' = temp t ++ map (fun bi => Edge.mk (fst bi) (snd bi) parent child) bps /\
  length (temp t') = (length (temp t) + length bps)%nat /\
  (forall i bi, nth_error bps i = Some bi ->
     nth_error (temp t') (length (temp t) + i)
       = Some (Edge.mk (fst bi) (snd bi) parent child)) /\
  t' = {| nodes := nodes t; edges := edges t; temp := temp t';
          offspring_indexes := offspring_indexes t;
          generation := generation t; next_index := next_index t;
          first_parental_index := first_parental_index t;
          lastN := lastN t; last_gc_time := last_gc_time t |} /\
  add_edges t [] parent child = t.
Proof.
  cbv zeta.
  assert (Htemp : temp (add_edges t bps parent child)
            = temp t ++ map (fun bi => Edge.mk (fst bi) (snd bi) parent child) bps).
  { unfold add_edges; cbn [temp]. apply emplace_all. }
  split; [exact Htemp|]. split.
  { rewrite Htemp, length_app, length_map. reflexivity. }
  split.
  { intros i bi Hi. rewrite Htemp, nth_error_app2 by lia.
    replace (length (temp t) + i - length (temp t))%nat with i by lia.
    rewrite nth_error_map, Hi. reflexivity. }
  split; [reflexivity|].
  destruct t; reflexivity.
Qed.

Lemma add_edges_appends_witness :
  nth_error [(0%float, 0.5%float); (0.5%float, 1%float)] 1
    = Some (0.5%float, 1%float) /\
  nth_error (temp (add_edges (new_ancestry_tracker 1)
                     [(0%float, 0.5%float); (0.5%float, 1%float)] 0 2)) 1
    = Some (Edge.mk 0.5%float 1%float 0 2).
Proof.
  assert (Hi : nth_error [(0%float, 0.5%float); (0.5%float, 1%float)] 1
               = Some (0.5%float, 1%float)) by reflexivity.
  split; [exact Hi|].
  destruct (add_edges_appends (new_ancestry_tracker 1)
              [(0%float, 0.5%float); (0.5%float, 1%float)] 0 2)
    as [_ [_ [Hnth _]]].
  exact (Hnth 1%nat _ Hi).
Defined.

(** ** Parents *)

(** X2.  Different ordinals never share an identity: whatever the two
    swap flags, the two identities of parent [p] and the two of parent
    [q] are four different identities when [p] and [q] differ. *)
Theorem get_parent_ids_disjoint (t : ancestry_tracker) (p q : Z) (s s' : bool) :
  p <> q ->
  let ids_p := get_parent_ids t p (Z.b2z s) in
  let ids_q := get_parent_ids t q (Z.b2z s') in
  fst ids_p <> fst ids_q /\ fst ids_p <> snd ids_q /\
  snd ids_p <> fst ids_q /\ snd ids_p <> snd ids_q.
Proof.
  intros Hpq. unfold get_parent_ids, lnot.
  destruct s, s'; cbn [Z.b2z Z.eqb fst snd]; repeat split; lia.
Qed.

Lemma get_parent_ids_disjoint_witness :
  0 <> 1 /\
  fst (get_parent_ids (new_ancestry_tracker 2) 0 (Z.b2z true))
    <> snd (get_parent_ids (new_ancestry_tracker 2) 1 (Z.b2z false)).
Proof.
  assert (H01 : 0 <> 1) by discriminate.
  split; [exact H01|].
  exact (proj1 (proj2 (get_parent_ids_disjoint (new_ancestry_tracker 2) 0 1
                         true false H01))).
Defined.

(** X3.  [did_swap] is an [int], not a boolean.  For any value other
    than 0 the second identity is the parent's first copy; for a value
    that is neither 0 nor 1 the first identity is [did_swap] above it and
    is not one of the parent's two copies. *)
Theorem get_parent_ids_wide_flag (t : ancestry_tracker) (p d : Z) :
  d <> 0 ->
  let a := first_parental_index t + 2 * p in
  get_parent_ids t p d = (a + d, a) /\
  (d <> 1 -> fst (get_parent_ids t p d) <> a /\
             fst (get_parent_ids t p d) <> a + 1).
Proof.
  intros Hd. unfold get_parent_ids, lnot.
  destruct (Z.eqb_spec d 0) as [|_]; [contradiction|].
  cbn [fst]. split; [f_equal; lia|]. intros Hd1. split; lia.
Qed.

Lemma get_parent_ids_wide_flag_witness :
  2 <> 0 /\ get_parent_ids (new_ancestry_tracker 2) 0 2 = (2, 0).
Proof.
  assert (H : 2 <> 0) by discriminate.
  split; [exact H|].
  exact (proj1 (get_parent_ids_wide_flag (new_ancestry_tracker 2) 0 2 H)).
Defined.

(** X4.  Right after construction for [N] diploids, the identities of
    parent [p < N] are the ids of the two founder nodes stored at
    positions [2p] and [2p + 1]. *)
Theorem founder_parents_have_nodes (N p : Z) :
  0 <= p < N ->
  let t := new_ancestry_tracker N in
  get_parent_ids t p 0 = (2 * p, 2 * p + 1) /\
  nth_error (nodes t) (Z.to_nat (2 * p)) = Some (Node.mk (2 * p) 0 0) /\
  nth_error (nodes t) (Z.to_nat (2 * p + 1)) = Some (Node.mk (2 * p + 1) 0 0).
Proof.
  intros Hp. cbv zeta. split; [unfold get_parent_ids; cbn; f_equal; lia|].
  unfold new_ancestry_tracker; cbn [nodes]. unfold loop_range.
  rewrite !nth_error_map, !consecutive_nth by lia. cbn [option_map make_node].
  rewrite !Z2Nat.id, !Z.add_0_l by lia. split; reflexivity.
Qed.

Lemma founder_parents_have_nodes_witness :
  0 <= 1 < 2 /\ get_parent_ids (new_ancestry_tracker 2) 1 0 = (2, 3).
Proof.
  assert (H : 0 <= 1 < 2) by lia.
  split; [exact H|]. exact (proj1 (founder_parents_have_nodes 2 1 H)).
Defined.

(** ** Runs *)

Lemma finish_generation_inv (t t' : ancestry_tracker) :
  finish_generation t = Some t' ->
  exists front rest,
    offspring_indexes t = front :: rest /\
    t' = {| nodes := nodes t
                     ++ map (fun oi => make_node oi (generation t) 0)
                            (offspring_indexes t);
            edges := edges t ++ temp t;
            temp := [];
            offspring_indexes := offspring_indexes t;
            generation := generation t + 1;
            next_index := next_index t;
            first_parental_index := front;
            lastN := to_uint32 (next_index t - first_parental_index t);
            last_gc_time := last_gc_time t |}.
Proof.
  intros Hfin. assert (Hne : offspring_indexes t <> []).
  { intros He. unfold finish_generation in Hfin. rewrite He in Hfin. discriminate. }
  destruct (finish_generation_nonempty t Hne) as [f [r [Hl Heq]]].
  exists f, r. split; [exact Hl|]. rewrite Heq in Hfin. now injection Hfin as <-.
Qed.

(** Splits a successful [step] into its five calls; the tracker left
    behind replaces [t'] everywhere. *)
Ltac step_cases c Hstep :=
  let t1 := fresh "t1" in
  let Hfin := fresh "Hfin" in
  destruct c as [| ?bps ?parent ?child | | | ?gc ?idx]; cbn [step] in Hstep;
  [ injection Hstep as <- <-
  | injection Hstep as <- <-
  | match type of Hstep with
    | context [finish_generation ?t] =>
        destruct (finish_generation t) as [t1|] eqn:Hfin;
        [injection Hstep as <- <- | discriminate Hstep]
    end
  | injection Hstep as <- <-
  | injection Hstep as <- <- ].

Lemma prep_for_gc_frame (t : ancestry_tracker) :
  edges (prep_for_gc t) = edges t /\
  temp (prep_for_gc t) = temp t /\
  offspring_indexes (prep_for_gc t) = offspring_indexes t /\
  generation (prep_for_gc t) = generation t /\
  next_index (prep_for_gc t) = next_index t /\
  first_parental_index (prep_for_gc t) = first_parental_index t /\
  lastN (prep_for_gc t) = lastN t /\
  last_gc_time (prep_for_gc t) = last_gc_time t.
Proof. unfold prep_for_gc. destruct (back (nodes t)); cbn; repeat split. Qed.

(** What one call does to the counters, to what it returns and to the
    two edge containers. *)
Lemma step_effect (t t' : ancestry_tracker) (c : call) (out : list integer_type) :
  step t c = Some (t', out) ->
  generation t' = generation t + (if is_finish c then 1 else 0) /\
  out = (if is_allocation c then [next_index t; next_index t + 1] else []) /\
  (is_reset c = false ->
     next_index t' = next_index t + (if is_allocation c then 2 else 0) /\
     exists es, edges t' = edges t ++ es /\ es ++ temp t' = temp t ++ staged_by c).
Proof.
  intros Hstep. step_cases c Hstep.
  - cbn [get_next_indexes generation next_index edges temp is_finish
         is_allocation staged_by fst snd].
    split; [lia|]. split; [reflexivity|]. intros _. split; [reflexivity|].
    exists []. now rewrite !app_nil_r.
  - cbn [add_edges generation next_index edges temp is_finish is_allocation
         staged_by].
    split; [lia|]. split; [reflexivity|]. intros _. split; [lia|].
    exists []. rewrite app_nil_r. split; [reflexivity|]. cbn [app].
    apply emplace_all.
  - destruct (finish_generation_inv _ _ Hfin) as [f [r [_ ->]]].
    cbn [generation next_index edges temp is_finish is_allocation staged_by].
    split; [reflexivity|]. split; [reflexivity|]. intros _. split; [lia|].
    exists (temp t). now rewrite !app_nil_r.
  - destruct (prep_for_gc_frame t) as [He [Ht [_ [Hg [Hx _]]]]].
    cbn [is_finish is_allocation staged_by]. rewrite Hg, Hx, He, Ht.
    split; [lia|]. split; [reflexivity|]. intros _. split; [lia|].
    exists []. now rewrite !app_nil_r.
  - destruct gc; cbn [post_process_gc negb generation next_index edges temp
                      is_finish is_allocation is_reset staged_by].
    + split; [lia|]. split; [reflexivity|]. discriminate.
    + split; [lia|]. split; [reflexivity|]. intros _. split; [lia|].
      exists []. now rewrite !app_nil_r.
Qed.

Lemma run_cons (t : ancestry_tracker) (c : call) (cs : list call)
    (t' : ancestry_tracker) (out : list integer_type) :
  run t (c :: cs) = Some (t', out) ->
  exists t1 out1 out2,
    step t c = Some (t1, out1) /\ run t1 cs = Some (t', out2) /\
    out = out1 ++ out2.
Proof.
  cbn [run]. destruct (step t c) as [[t1 out1]|]; [|discriminate].
  destruct (run t1 cs) as [[t2 out2]|] eqn:Hrest; [|discriminate].
  intros [= <- <-]. exists t1, out1, out2.
  split; [reflexivity|]. split; [exact Hrest | reflexivity].
Qed.

(** X5.  Whatever the calls, resets included, a run only ever appends to
    the offspring-identity list, and what it appends is exactly the
    identities it returned, in the order returned: two per call to
    [get_next_indexes]. *)
Theorem run_logs_identities (cs : list call) :
  forall t t' out,
    run t cs = Some (t', out) ->
    offspring_indexes t' = offspring_indexes t ++ out /\
    length out = (2 * allocations cs)%nat /\
    (length (offspring_indexes t) <= length (offspring_indexes t'))%nat.
Proof.
  induction cs as [|c cs IH]; intros t t' out Hrun.
  - injection Hrun as <- <-. rewrite app_nil_r. repeat split. lia.
  - destruct (run_cons _ _ _ _ _ Hrun) as [t1 [o1 [o2 [Hstep [Hrest ->]]]]].
    destruct (IH _ _ _ Hrest) as [Hlist [Hlen _]].
    pose proof (offspring_indexes_grow _ _ _ _ Hstep) as Hgrow.
    destruct (step_effect _ _ _ _ Hstep) as [_ [Hout _]].
    assert (Hall : offspring_indexes t' = offspring_indexes t ++ o1 ++ o2).
    { rewrite Hlist, Hgrow, <- app_assoc. reflexivity. }
    split; [exact Hall|]. split.
    + rewrite length_app, Hlen, Hout. unfold allocations. cbn [filter].
      destruct (is_allocation c); cbn [length]; lia.
    + rewrite Hall, length_app. lia.
Qed.

Lemma run_logs_identities_witness :
  exists t',
    run (new_ancestry_tracker 1)
        [GetNextIndexes; FinishGeneration; PostProcessGc true 0; GetNextIndexes]
      = Some (t', [2; 3; 0; 1]) /\
    offspring_indexes t' = [2; 3; 0; 1].
Proof.
  eexists. split; [vm_compute; reflexivity|].
  exact (proj1 (run_logs_identities
                  [GetNextIndexes; FinishGeneration; PostProcessGc true 0;
                   GetNextIndexes] (new_ancestry_tracker 1) _ _ eq_refl)).
Defined.

(** X6.  The generation counter moves only in [finish_generation], by
    one each time: after a run it is the counter before plus the number
    of generations finished, so one more than that number in a run from
    construction. *)
Theorem generation_counts_finishes (cs : list call) :
  forall t t' out,
    run t cs = Some (t', out) ->
    generation t' = generation t + Z.of_nat (finishes cs) /\
    (forall N, t = new_ancestry_tracker N ->
       generation t' = 1 + Z.of_nat (finishes cs)).
Proof.
  assert (Hgen : forall t t' out, run t cs = Some (t', out) ->
                   generation t' = generation t + Z.of_nat (finishes cs)).
  { induction cs as [|c cs IH]; intros t t' out Hrun.
    - injection Hrun as <- <-. cbn. lia.
    - destruct (run_cons _ _ _ _ _ Hrun) as [t1 [o1 [o2 [Hstep [Hrest _]]]]].
      rewrite (IH _ _ _ Hrest).
      destruct (step_effect _ _ _ _ Hstep) as [-> _].
      unfold finishes. cbn [filter]. destruct (is_finish c); cbn [length]; lia. }
  intros t t' out Hrun. split; [eauto|].
  intros N ->. now rewrite (Hgen _ _ _ Hrun).
Qed.

Lemma generation_counts_finishes_witness :
  exists t',
    run (new_ancestry_tracker 1)
        [GetNextIndexes; FinishGeneration; PrepForGc; FinishGeneration]
      = Some (t', [2; 3]) /\
    generation t' = 1 + 2.
Proof.
  eexists. split; [vm_compute; reflexivity|].
  exact (proj1 (generation_counts_finishes
                  [GetNextIndexes; FinishGeneration; PrepForGc; FinishGeneration]
                  (new_ancestry_tracker 1) _ _ eq_refl)).
Defined.

(** X7.  Between resets no identity is handed out twice: in a run
    without a true-flagged [post_process_gc], over any number of
    generations, the identities returned are the consecutive integers
    from the [next_index] the run started with, and [next_index] ends
    just past the last of them. *)
Theorem identities_never_reused (cs : list call) :
  forall t t' out,
    existsb is_reset cs = false ->
    run t cs = Some (t', out) ->
    out = consecutive (next_index t) (2 * allocations cs) /\
    next_index t' = next_index t + 2 * Z.of_nat (allocations cs) /\
    NoDup out /\
    Forall (fun i => next_index t <= i < next_index t') out.
Proof.
  assert (Hmain : forall t t' out,
            existsb is_reset cs = false -> run t cs = Some (t', out) ->
            out = consecutive (next_index t) (2 * allocations cs) /\
            next_index t' = next_index t + 2 * Z.of_nat (allocations cs)).
  { induction cs as [|c cs IH]; intros t t' out Hnr Hrun.
    - injection Hrun as <- <-. cbn. split; [reflexivity | lia].
    - cbn [existsb] in Hnr. apply orb_false_elim in Hnr. destruct Hnr as [Hc Hcs].
      destruct (run_cons _ _ _ _ _ Hrun) as [t1 [o1 [o2 [Hstep [Hrest ->]]]]].
      destruct (IH _ _ _ Hcs Hrest) as [-> Hnext].
      destruct (step_effect _ _ _ _ Hstep) as [_ [-> Hkeep]].
      destruct (Hkeep Hc) as [Hx _]. rewrite Hnext, Hx.
      unfold allocations. cbn [filter]. destruct (is_allocation c).
      + cbn [length]. rewrite consecutive_pair. split; [reflexivity | lia].
      + rewrite Z.add_0_r. split; [reflexivity | lia]. }
  intros t t' out Hnr Hrun. destruct (Hmain _ _ _ Hnr Hrun) as [Hout Hnext].
  split; [exact Hout|]. split; [exact Hnext|]. split.
  - rewrite Hout. apply sorted_nodup, consecutive_sorted.
  - rewrite Hout, Hnext. apply Forall_forall. intros i Hi.
    apply In_nth_error in Hi. destruct Hi as [j Hj].
    assert (Hlt : (j < 2 * allocations cs)%nat).
    { rewrite <- (consecutive_length (next_index t) (2 * allocations cs)).
      apply nth_error_Some. now rewrite Hj. }
    rewrite consecutive_nth in Hj by exact Hlt. injection Hj as <-. lia.
Qed.

Lemma identities_never_reused_witness :
  exists t',
    run (new_ancestry_tracker 1)
        [GetNextIndexes; FinishGeneration; PostProcessGc false 0;
         GetNextIndexes; FinishGeneration]
      = Some (t', [2; 3; 4; 5]) /\
    next_index t' = 2 + 2 * 2.
Proof.
  eexists. split; [vm_compute; reflexivity|].
  exact (proj1 (proj2 (identities_never_reused
                  [GetNextIndexes; FinishGeneration; PostProcessGc false 0;
                   GetNextIndexes; FinishGeneration] (new_ancestry_tracker 1)
                  _ _ eq_refl eq_refl))).
Defined.

(** X8.  Between resets no staged edge is lost, duplicated or reordered:
    in a run without a true-flagged [post_process_gc] the permanent edge
    store only grows at its end, and what it gained followed by what is
    still staged is what was staged at the start followed by every edge
    the calls to [add_edges] built, in call order.  So once the staging
    buffer is empty the store has gained exactly those edges. *)
Theorem edges_conserved (cs : list call) :
  forall t t' out,
    existsb is_reset cs = false ->
    run t cs = Some (t', out) ->
    exists es,
      edges t' = edges t ++ es /\
      es ++ temp t' = temp t ++ staged cs /\
      (temp t' = [] -> edges t' = edges t ++ temp t ++ staged cs).
Proof.
  assert (Hmain : forall t t' out,
            existsb is_reset cs = false -> run t cs = Some (t', out) ->
            exists es, edges t' = edges t ++ es /\
                       es ++ temp t' = temp t ++ staged cs).
  { induction cs as [|c cs IH]; intros t t' out Hnr Hrun.
    - injection Hrun as <- <-. exists []. cbn. now rewrite !app_nil_r.
    - cbn [existsb] in Hnr. apply orb_false_elim in Hnr. destruct Hnr as [Hc Hcs].
      destruct (run_cons _ _ _ _ _ Hrun) as [t1 [o1 [o2 [Hstep [Hrest _]]]]].
      destruct (IH _ _ _ Hcs Hrest) as [es2 [He2 Hs2]].
      destruct (step_effect _ _ _ _ Hstep) as [_ [_ Hkeep]].
      destruct (Hkeep Hc) as [_ [es1 [He1 Hs1]]].
      exists (es1 ++ es2). split.
      + rewrite He2, He1, app_assoc. reflexivity.
      + unfold staged. cbn [flat_map]. fold (staged cs).
        rewrite <- app_assoc, Hs2, !app_assoc, Hs1. reflexivity. }
  intros t t' out Hnr Hrun. destruct (Hmain _ _ _ Hnr Hrun) as [es [He Hs]].
  exists es. split; [exact He|]. split; [exact Hs|].
  intros Hempty. rewrite Hempty, app_nil_r in Hs. now rewrite He, Hs.
Qed.

Lemma edges_conserved_witness :
  exists t' es,
    run (new_ancestry_tracker 1)
        [GetNextIndexes; AddEdges [(0%float, 1%float)] 0 2; FinishGeneration;
         AddEdges [(0%float, 0.5%float)] 2 4]
      = Some (t', [2; 3]) /\
    edges t' = [] ++ es /\
    es ++ temp t' = [Edge.mk 0%float 1%float 0 2; Edge.mk 0%float 0.5%float 2 4].
Proof.
  eexists.
  destruct (edges_conserved
              [GetNextIndexes; AddEdges [(0%float, 1%float)] 0 2; FinishGeneration;
               AddEdges [(0%float, 0.5%float)] 2 4] (new_ancestry_tracker 1)
              _ _ eq_refl eq_refl) as [es [He [Hs _]]].
  exists es. split; [vm_compute; reflexivity|]. split; [exact He | exact Hs].
Defined.

(** ** When a run is defined *)

Lemma step_keeps_nonempty (t t' : ancestry_tracker) (c : call)
    (out : list integer_type) :
  offspring_indexes t <> [] -> step t c = Some (t', out) ->
  offspring_indexes t' <> [].
Proof.
  intros Hne Hstep. rewrite (offspring_indexes_grow _ _ _ _ Hstep).
  intros Happ. apply app_eq_nil in Happ. now destruct Happ.
Qed.

Lemma step_defined (t : ancestry_tracker) (c : call) :
  offspring_indexes t <> [] -> exists r, step t c = Some r.
Proof.
  intros Hne. destruct c; cbn [step]; try (eexists; reflexivity).
  destruct (finish_generation_nonempty t Hne) as [f [r [_ ->]]].
  eexists; reflexivity.
Qed.

Lemma run_defined_nonempty (cs : list call) :
  forall t, offspring_indexes t <> [] -> exists r, run t cs = Some r.
Proof.
  induction cs as [|c cs IH]; intros t Hne; [eexists; reflexivity|].
  destruct (step_defined t c Hne) as [[t1 o1] Hstep].
  destruct (IH t1 (step_keeps_nonempty _ _ _ _ Hne Hstep)) as [[t2 o2] Hrest].
  cbn [run]. rewrite Hstep, Hrest. eexists; reflexivity.
Qed.

(** X9.  The only undefined call is a [finish_generation] before any
    identity was ever allocated.  Once the offspring-identity list holds
    an entry every sequence of calls is defined; and on an empty list a
    sequence is defined exactly when a [get_next_indexes] comes before
    its first [finish_generation], if it has one. *)
Theorem run_defined (cs : list call) :
  forall t,
    (offspring_indexes t <> [] -> exists r, run t cs = Some r) /\
    (offspring_indexes t = [] ->
       (allocates_before_finish cs = true <-> exists r, run t cs = Some r)).
Proof.
  intros t. split; [apply run_defined_nonempty|]. revert t.
  induction cs as [|c cs IH]; intros t Hempty.
  - split; [intros _; eexists; reflexivity | reflexivity].
  - destruct c as [| bps parent child | | | gc idx].
    + split; [intros _ | reflexivity].
      cbn [run step]. destruct (get_next_indexes t) as [[a b] t1] eqn:Hget.
      assert (Hne : offspring_indexes t1 <> []).
      { apply (f_equal snd) in Hget. cbn [snd] in Hget. subst t1.
        cbn [get_next_indexes snd offspring_indexes]. intros Happ.
        apply app_eq_nil in Happ. destruct Happ as [_ Hx]. discriminate Hx. }
      destruct (run_defined_nonempty cs t1 Hne) as [[t2 o2] ->].
      eexists; reflexivity.
    + cbn [allocates_before_finish run step].
      rewrite (IH (add_edges t bps parent child) Hempty).
      split; intros [r Hr].
      * destruct (run (add_edges t bps parent child) cs) as [[t2 o2]|];
          [eexists; reflexivity | discriminate].
      * destruct (run (add_edges t bps parent child) cs) as [[t2 o2]|];
          [eexists; reflexivity | discriminate].
    + cbn [allocates_before_finish run step]. unfold finish_generation.
      rewrite Hempty. split; [discriminate | intros [r Hr]; discriminate].
    + cbn [allocates_before_finish run step].
      assert (Hp : offspring_indexes (prep_for_gc t) = []).
      { destruct (prep_for_gc_frame t) as [_ [_ [-> _]]]. exact Hempty. }
      rewrite (IH (prep_for_gc t) Hp).
      split; intros [r Hr];
        (destruct (run (prep_for_gc t) cs) as [[t2 o2]|];
           [eexists; reflexivity | discriminate]).
    + cbn [allocates_before_finish run step].
      assert (Hp : offspring_indexes (post_process_gc t gc idx) = []).
      { destruct gc; exact Hempty. }
      rewrite (IH (post_process_gc t gc idx) Hp).
      split; intros [r Hr];
        (destruct (run (post_process_gc t gc idx) cs) as [[t2 o2]|];
           [eexists; reflexivity | discriminate]).
Qed.

Lemma run_defined_witness :
  offspring_indexes (new_ancestry_tracker 1) = [] /\
  allocates_before_finish [PrepForGc; FinishGeneration; GetNextIndexes] = false /\
  run (new_ancestry_tracker 1) [PrepForGc; FinishGeneration; GetNextIndexes] = None /\
  offspring_indexes one_pair <> [] /\
  exists r, run one_pair [PrepForGc; FinishGeneration; GetNextIndexes] = Some r.
Proof.
  assert (He : offspring_indexes (new_ancestry_tracker 1) = []) by reflexivity.
  assert (Hne : offspring_indexes one_pair <> []) by (vm_compute; discriminate).
  split; [exact He|]. split; [reflexivity|]. split; [reflexivity|].
  split; [exact Hne|].
  exact (proj1 (run_defined [PrepForGc; FinishGeneration; GetNextIndexes] one_pair)
               Hne).
Defined.

(** ** Preparing, again *)

Lemma back_map {A B : Type} (f : A -> B) (v : list A) :
  back (map f v) = option_map f (back v).
Proof.
  destruct v as [|x v]; [reflexivity|]. cbn [map back option_map]. f_equal.
  revert x; induction v as [|y v IH]; intros x; [reflexivity|].
  cbn [map]. rewrite !last_cons_default. apply IH.
Qed.

Lemma back_app {A : Type} (v w : list A) :
  w <> [] -> back (v ++ w) = back w.
Proof.
  intros Hw. induction v as [|x v IH]; [reflexivity|].
  destruct w as [|y w]; [contradiction|].
  cbn [app back]. destruct (v ++ y :: w) as [|z u] eqn:Hvw.
  - destruct v; discriminate Hvw.
  - rewrite last_cons_default. cbn [back] in IH. exact IH.
Qed.

Lemma prep_for_gc_with_nodes (t : ancestry_tracker) (b : node) :
  back (nodes t) = Some b ->
  prep_for_gc t
    = with_nodes t (map (to_backwards_time (Node.generation b)) (nodes t)).
Proof. intros Hb. unfold prep_for_gc. now rewrite Hb. Qed.

Lemma prep_for_gc_empty (t : ancestry_tracker) :
  nodes t = [] -> prep_for_gc t = t.
Proof. intros He. unfold prep_for_gc. now rewrite He. Qed.

Lemma back_none {A : Type} (v : list A) : back v = None -> v = [].
Proof. destruct v; [reflexivity | discriminate]. Qed.

Lemma to_backwards_time_twice (n : node) :
  to_backwards_time 0 (to_backwards_time 0 n) = n.
Proof.
  destruct n as [i g q]. unfold to_backwards_time. cbn. f_equal. lia.
Qed.

(** X10.  [prep_for_gc] rewrites times only.  On every store, empty or
    not, the nodes keep their number, order, ids and populations; the
    last node ends with time 0; and a tracker with an empty store comes
    back as it was. *)
Theorem prep_for_gc_keeps_nodes (t : ancestry_tracker) :
  length (nodes (prep_for_gc t)) = length (nodes t) /\
  map Node.id (nodes (prep_for_gc t)) = map Node.id (nodes t) /\
  map Node.population (nodes (prep_for_gc t)) = map Node.population (nodes t) /\
  (forall b', back (nodes (prep_for_gc t)) = Some b' -> Node.generation b' = 0) /\
  (nodes t = [] -> prep_for_gc t = t).
Proof.
  destruct (back (nodes t)) as [b|] eqn:Hb.
  - rewrite (prep_for_gc_with_nodes t b Hb). cbn [with_nodes nodes].
    rewrite length_map, !map_map. cbn [to_backwards_time Node.id Node.population].
    split; [reflexivity|]. split; [reflexivity|]. split; [reflexivity|]. split.
    + intros b' Hb'. rewrite back_map, Hb in Hb'. cbn in Hb'.
      injection Hb' as <-. cbn. lia.
    + intros He. rewrite He in Hb. discriminate Hb.
  - apply back_none in Hb. rewrite (prep_for_gc_empty t Hb).
    split; [reflexivity|]. split; [reflexivity|]. split; [reflexivity|]. split.
    + intros b' Hb'. rewrite Hb in Hb'. discriminate Hb'.
    + reflexivity.
Qed.

Lemma prep_for_gc_keeps_nodes_witness :
  back (nodes (prep_for_gc after_one_generation)) = Some (Node.mk 3 0 0) /\
  nodes (new_ancestry_tracker 0) = [] /\
  prep_for_gc (new_ancestry_tracker 0) = new_ancestry_tracker 0.
Proof.
  assert (Hb : back (nodes (prep_for_gc after_one_generation))
               = Some (Node.mk 3 0 0)) by (vm_compute; reflexivity).
  assert (He : nodes (new_ancestry_tracker 0) = []) by reflexivity.
  destruct (prep_for_gc_keeps_nodes after_one_generation) as [_ [_ [_ [Hlast _]]]].
  pose proof (Hlast _ Hb) as H0.
  split; [exact Hb|]. split; [exact He|].
  exact (proj2 (proj2 (proj2 (proj2
           (prep_for_gc_keeps_nodes (new_ancestry_tracker 0))))) He).
Defined.

(** X11.  [prep_for_gc] does not undo itself.  A second call in a row
    leaves every time at its original value minus the original time of
    the last node; a third call gives back exactly the tracker the first
    one gave. *)
Theorem prep_for_gc_thrice (t : ancestry_tracker) :
  prep_for_gc (prep_for_gc (prep_for_gc t)) = prep_for_gc t /\
  (forall b, back (nodes t) = Some b ->
     map Node.generation (nodes (prep_for_gc (prep_for_gc t)))
       = map (fun n => Node.generation n - Node.generation b) (nodes t)).
Proof.
  destruct (back (nodes t)) as [b|] eqn:Hb.
  - pose proof (prep_for_gc_with_nodes t b Hb) as H1.
    set (ns1 := map (to_backwards_time (Node.generation b)) (nodes t)) in H1.
    assert (Hb1 : back (nodes (prep_for_gc t))
                  = Some (to_backwards_time (Node.generation b) b)).
    { rewrite H1. cbn [with_nodes nodes]. unfold ns1.
      now rewrite back_map, Hb. }
    pose proof (prep_for_gc_with_nodes _ _ Hb1) as H2.
    replace (Node.generation (to_backwards_time (Node.generation b) b))
      with 0 in H2 by (cbn; lia).
    assert (Hb2 : back (nodes (prep_for_gc (prep_for_gc t)))
                  = Some (to_backwards_time 0
                            (to_backwards_time (Node.generation b) b))).
    { rewrite H2. cbn [with_nodes nodes]. now rewrite back_map, Hb1. }
    pose proof (prep_for_gc_with_nodes _ _ Hb2) as H3.
    replace (Node.generation
               (to_backwards_time 0 (to_backwards_time (Node.generation b) b)))
      with 0 in H3 by (cbn; lia).
    split.
    + rewrite H3, H2. cbn [with_nodes nodes edges temp offspring_indexes
                            generation next_index first_parental_index lastN
                            last_gc_time].
      rewrite map_map.
      rewrite (map_ext _ (fun n => n) to_backwards_time_twice), map_id.
      rewrite H1. reflexivity.
    + intros b0 [= <-]. rewrite H2, H1. cbn [with_nodes nodes]. unfold ns1.
      rewrite !map_map. apply map_ext. intros n. cbn. lia.
  - apply back_none in Hb. rewrite !(prep_for_gc_empty t Hb).
    split; [reflexivity|]. intros b Hb'. discriminate Hb'.
Qed.

Lemma prep_for_gc_thrice_witness :
  back (nodes after_one_generation) = Some (Node.mk 3 1 0) /\
  map Node.generation (nodes (prep_for_gc (prep_for_gc after_one_generation)))
    = [-1; -1; 0; 0].
Proof.
  assert (Hb : back (nodes after_one_generation) = Some (Node.mk 3 1 0))
    by (vm_compute; reflexivity).
  split; [exact Hb|].
  exact (proj2 (prep_for_gc_thrice after_one_generation) _ Hb).
Defined.

(** ** Times along a run *)

Lemma forward_times_new (N : integer_type) : forward_times (new_ancestry_tracker N).
Proof.
  split; [apply forward_new|]. split; [cbn; lia|]. split.
  - unfold new_ancestry_tracker; cbn [nodes]. apply Forall_forall.
    intros n Hn. apply in_map_iff in Hn. destruct Hn as [i [<- _]]. cbn. lia.
  - intros b Hb. unfold new_ancestry_tracker in Hb; cbn [nodes] in Hb.
    rewrite back_map in Hb. destruct (back (loop_range (2 * N))); [|discriminate].
    cbn in Hb. injection Hb as <-. reflexivity.
Qed.

Lemma forward_times_step (t t' : ancestry_tracker) (c : call)
    (out : list integer_type) :
  forward_times t -> is_prep c = false -> step t c = Some (t', out) ->
  forward_times t'.
Proof.
  intros [Hf [Hg [Hpos Hlast]]] Hc Hstep.
  split; [eapply forward_step; eassumption|].
  step_cases c Hstep; try discriminate Hc.
  - repeat split; assumption.
  - repeat split; assumption.
  - destruct (finish_generation_inv _ _ Hfin) as [f [r [Hoff ->]]].
    cbn [generation nodes]. split; [lia|]. split.
    + apply Forall_app. split; [exact Hpos|]. apply Forall_forall.
      intros n Hn. apply in_map_iff in Hn. destruct Hn as [i [<- _]]. cbn. lia.
    + intros b Hb. rewrite back_app in Hb by (rewrite Hoff; discriminate).
      rewrite back_map in Hb. destruct (back (offspring_indexes t)); [|discriminate].
      cbn in Hb. injection Hb as <-. cbn. lia.
  - destruct gc.
    + cbn. split; [exact Hg|]. split; [constructor | discriminate].
    + repeat split; assumption.
Qed.

Lemma forward_times_run (cs : list call) :
  forall t t' out,
    forward_times t -> existsb is_prep cs = false ->
    run t cs = Some (t', out) -> forward_times t'.
Proof.
  induction cs as [|c cs IH]; intros t t' out Hf Hnp Hrun.
  - now injection Hrun as <- <-.
  - cbn [existsb] in Hnp. apply orb_false_elim in Hnp. destruct Hnp as [Hc Hcs].
    destruct (run_cons _ _ _ _ _ Hrun) as [t1 [o1 [o2 [Hstep [Hrest _]]]]].
    eapply IH; [| exact Hcs | exact Hrest].
    eapply forward_times_step; eassumption.
Qed.

Lemma sorted_reflected (m : Z) (l : list Z) :
  StronglySorted Z.le l -> StronglySorted Z.ge (map (fun g => m - g) l).
Proof.
  induction 1 as [|x l Hs IH Hx]; cbn [map]; constructor; [exact IH|].
  apply Forall_forall. intros y Hy. apply in_map_iff in Hy.
  destruct Hy as [g [<- Hg]]. rewrite Forall_forall in Hx.
  specialize (Hx g Hg). lia.
Qed.

(** X12.  As long as a simulation has not called [prep_for_gc], the node
    store is in forward time: along the store times never decrease, every
    time lies between 0 and the generation counter minus one, and a
    non-empty store ends with a node of exactly that time, which is the
    largest in the store. *)
Theorem forward_until_prepared (N : integer_type) (cs : list call)
    (t : ancestry_tracker) (out : list integer_type) :
  existsb is_prep cs = false ->
  run (new_ancestry_tracker N) cs = Some (t, out) ->
  StronglySorted Z.le (map Node.generation (nodes t)) /\
  Forall (fun n => 0 <= Node.generation n <= generation t - 1) (nodes t) /\
  (forall b, back (nodes t) = Some b ->
     Node.generation b = generation t - 1 /\
     max_generation (nodes t) = Some (generation t - 1)).
Proof.
  intros Hnp Hrun.
  destruct (forward_times_run cs _ _ _ (forward_times_new N) Hnp Hrun)
    as [Hf [Hg [Hpos Hlast]]].
  destruct Hf as [Hs Hup]. split; [exact Hs|]. split.
  - rewrite Forall_forall in *. intros n Hn.
    specialize (Hpos n Hn). specialize (Hup n Hn). lia.
  - intros b Hb. split; [now apply Hlast|].
    destruct (max_generation (nodes t)) as [m|] eqn:Hm.
    + f_equal. rewrite <- (Hlast b Hb). symmetry.
      apply (back_is_max _ _ _ Hb Hm).
      apply forward_back; [split; assumption | exact Hb].
    + destruct (nodes t); discriminate.
Qed.

Lemma forward_until_prepared_witness :
  exists t,
    run (new_ancestry_tracker 1)
        [GetNextIndexes; FinishGeneration; GetNextIndexes; FinishGeneration]
      = Some (t, [2; 3; 4; 5]) /\
    map Node.generation (nodes t) = [0; 0; 1; 1; 2; 2; 2; 2] /\
    max_generation (nodes t) = Some (3 - 1).
Proof.
  eexists. split; [vm_compute; reflexivity|]. split; [reflexivity|].
  destruct (forward_until_prepared 1
              [GetNextIndexes; FinishGeneration; GetNextIndexes; FinishGeneration]
              _ _ eq_refl eq_refl) as [_ [_ Hlast]].
  exact (proj2 (Hlast (Node.mk 5 2 0) eq_refl)).
Defined.

(** X13.  The first [prep_for_gc] of a simulation turns every time into
    the number of generations before the latest one: the generation
    counter minus one minus the forward time.  The results are never
    negative and never increase along the store. *)
Theorem first_prep_counts_back (N : integer_type) (cs : list call)
    (t : ancestry_tracker) (out : list integer_type) :
  existsb is_prep cs = false ->
  run (new_ancestry_tracker N) cs = Some (t, out) ->
  nodes (prep_for_gc t)
    = map (fun n => with_time n (generation t - 1 - Node.generation n)) (nodes t) /\
  Forall (fun n => 0 <= Node.generation n <= generation t - 1)
         (nodes (prep_for_gc t)) /\
  StronglySorted Z.ge (map Node.generation (nodes (prep_for_gc t))).
Proof.
  intros Hnp Hrun.
  destruct (forward_times_run cs _ _ _ (forward_times_new N) Hnp Hrun)
    as [[Hs Hup] [Hg [Hpos Hlast]]].
  assert (Hnodes : nodes (prep_for_gc t)
            = map (fun n => with_time n (generation t - 1 - Node.generation n))
                  (nodes t)).
  { destruct (back (nodes t)) as [b|] eqn:Hb.
    - rewrite (prep_for_gc_with_nodes t b Hb). cbn [with_nodes nodes].
      apply map_ext. intros n. unfold to_backwards_time, with_time.
      rewrite (Hlast b eq_refl). f_equal. lia.
    - apply back_none in Hb. rewrite (prep_for_gc_empty t Hb), Hb. reflexivity. }
  split; [exact Hnodes|]. rewrite Hnodes. split.
  - apply Forall_forall. intros n Hn. apply in_map_iff in Hn.
    destruct Hn as [n0 [<- Hn0]]. rewrite Forall_forall in Hpos, Hup.
    specialize (Hpos n0 Hn0). specialize (Hup n0 Hn0). cbn. lia.
  - rewrite map_map. cbn [with_time Node.generation].
    rewrite <- (map_map Node.generation (fun g => generation t - 1 - g)).
    now apply sorted_reflected.
Qed.

Lemma first_prep_counts_back_witness :
  exists t,
    run (new_ancestry_tracker 1)
        [GetNextIndexes; FinishGeneration; GetNextIndexes; FinishGeneration]
      = Some (t, [2; 3; 4; 5]) /\
    map Node.generation (nodes (prep_for_gc t)) = [2; 2; 1; 1; 0; 0; 0; 0].
Proof.
  eexists. split; [vm_compute; reflexivity|].
  destruct (first_prep_counts_back 1
              [GetNextIndexes; FinishGeneration; GetNextIndexes; FinishGeneration]
              _ _ eq_refl eq_refl) as [Hnodes _].
  exact (eq_trans (f_equal (map Node.generation) Hnodes) eq_refl).
Defined.

(** ** Identities in the store *)

Lemma consecutive_in (a : Z) (n : nat) (i : Z) :
  In i (consecutive a n) -> a <= i < a + Z.of_nat n.
Proof.
  intros Hi. apply In_nth_error in Hi. destruct Hi as [j Hj].
  assert (Hlt : (j < n)%nat).
  { rewrite <- (consecutive_length a n). apply nth_error_Some. now rewrite Hj. }
  rewrite consecutive_nth in Hj by exact Hlt. injection Hj as <-. lia.
Qed.

Lemma allocated_new (N : integer_type) : 0 <= N -> allocated (new_ancestry_tracker N).
Proof.
  intros HN. unfold allocated, new_ancestry_tracker.
  cbn [nodes next_index offspring_indexes].
  split; [lia|]. split; [|constructor].
  apply Forall_forall. intros n Hn. apply in_map_iff in Hn.
  destruct Hn as [i [<- Hi]]. apply consecutive_in in Hi.
  cbn [make_node Node.id]. lia.
Qed.

Lemma allocated_step (t t' : ancestry_tracker) (c : call) (out : list integer_type) :
  allocated t -> is_reset c = false -> step t c = Some (t', out) -> allocated t'.
Proof.
  intros [Hx [Hn Ho]] Hc Hstep. step_cases c Hstep.
  - unfold allocated.
    cbn [get_next_indexes snd fst nodes next_index offspring_indexes].
    split; [lia|]. split.
    + eapply Forall_impl; [|exact Hn]. cbv beta. intros; lia.
    + rewrite <- app_assoc. apply Forall_app. split.
      * eapply Forall_impl; [|exact Ho]. cbv beta. intros; lia.
      * repeat constructor; lia.
  - split; [exact Hx|]. split; assumption.
  - destruct (finish_generation_inv _ _ Hfin) as [f [r [_ ->]]].
    unfold allocated. cbn [nodes next_index offspring_indexes].
    split; [exact Hx|]. split; [|exact Ho].
    apply Forall_app. split; [exact Hn|].
    apply Forall_forall. intros n Hin. apply in_map_iff in Hin.
    destruct Hin as [i [<- Hi]]. rewrite Forall_forall in Ho. cbn.
    exact (Ho i Hi).
  - destruct (prep_for_gc_frame t) as [_ [_ [Hoff [_ [Hnext _]]]]].
    unfold allocated. rewrite Hoff, Hnext.
    split; [exact Hx|]. split; [|exact Ho].
    destruct (back (nodes t)) as [b|] eqn:Hb.
    + rewrite (prep_for_gc_with_nodes t b Hb). cbn [with_nodes nodes].
      apply Forall_forall. intros n Hin. apply in_map_iff in Hin.
      destruct Hin as [n0 [<- Hn0]]. rewrite Forall_forall in Hn. cbn.
      exact (Hn n0 Hn0).
    + apply back_none in Hb. now rewrite (prep_for_gc_empty t Hb).
  - destruct gc; [discriminate Hc|]. split; [exact Hx|]. split; assumption.
Qed.

(** X14.  Between construction for [N >= 0] and the first reset, every
    node in the store and every entry of the offspring-identity list
    carries an identity that was handed out: it is at least 0 and below
    [next_index]. *)
Theorem stored_identities_allocated (N : integer_type) (cs : list call)
    (t : ancestry_tracker) (out : list integer_type) :
  0 <= N ->
  existsb is_reset cs = false ->
  run (new_ancestry_tracker N) cs = Some (t, out) ->
  Forall (fun n => 0 <= Node.id n < next_index t) (nodes t) /\
  Forall (fun i => 0 <= i < next_index t) (offspring_indexes t).
Proof.
  intros HN Hnr Hrun.
  assert (Hinv : forall cs t0 t1 o, allocated t0 -> existsb is_reset cs = false ->
                   run t0 cs = Some (t1, o) -> allocated t1).
  { clear. induction cs as [|c cs IH]; intros t0 t1 o Ha Hnr Hrun.
    - now injection Hrun as <- <-.
    - cbn [existsb] in Hnr. apply orb_false_elim in Hnr. destruct Hnr as [Hc Hcs].
      destruct (run_cons _ _ _ _ _ Hrun) as [t2 [o1 [o2 [Hstep [Hrest _]]]]].
      eapply IH; [| exact Hcs | exact Hrest].
      eapply allocated_step; eassumption. }
  destruct (Hinv cs _ _ _ (allocated_new N HN) Hnr Hrun) as [_ [Hn Ho]].
  split; assumption.
Qed.

Lemma stored_identities_allocated_witness :
  0 <= 1 /\
  exists t,
    run (new_ancestry_tracker 1) [GetNextIndexes; FinishGeneration; PrepForGc]
      = Some (t, [2; 3]) /\
    Forall (fun n => 0 <= Node.id n < next_index t) (nodes t).
Proof.
  assert (HN : 0 <= 1) by lia.
  split; [exact HN|]. eexists. split; [vm_compute; reflexivity|].
  exact (proj1 (stored_identities_allocated 1
                  [GetNextIndexes; FinishGeneration; PrepForGc] _ _ HN
                  eq_refl eq_refl)).
Defined.

(** X15.  This generation's offspring are the next generation's parents.
    When a generation begins on an empty offspring-identity list and
    allocates [k >= 1] pairs, then after [finish_generation] the two
    identities of parent [p < k] are the pair that the call number [p]
    to [get_next_indexes] returned, and both have a node in the store,
    stamped with the generation just finished. *)
Theorem offspring_become_parents (t : ancestry_tracker) (cs : list call) :
  forallb in_generation cs = true ->
  (1 <= allocations cs)%nat ->
  offspring_indexes t = [] ->
  exists t1 ids t',
    run t cs = Some (t1, ids) /\
    finish_generation t1 = Some t' /\
    forall p, (p < allocations cs)%nat ->
      let parent := get_parent_ids t' (Z.of_nat p) 0 in
      nth_error ids (2 * p) = Some (fst parent) /\
      nth_error ids (2 * p + 1) = Some (snd parent) /\
      In (Node.mk (fst parent) (generation t) 0) (nodes t') /\
      In (Node.mk (snd parent) (generation t) 0) (nodes t').
Proof.
  intros Hcs Hk Hempty.
  destruct (run_in_generation cs t Hcs) as [t1 [Hrun [Hn [He [Hg [Ho [Hx Hf]]]]]]].
  rewrite Hempty in Ho. cbn [app] in Ho.
  destruct (allocations cs) as [|k] eqn:Hallocs; [lia|].
  assert (Hne : offspring_indexes t1 <> []).
  { rewrite Ho, consecutive_pair. discriminate. }
  destruct (finish_generation_nonempty t1 Hne) as [f [r [Hfr Hfin]]].
  assert (Hfront : f = next_index t).
  { rewrite Ho, consecutive_pair in Hfr. now injection Hfr. }
  exists t1. eexists. eexists. split; [exact Hrun|]. split; [exact Hfin|].
  intros p Hp. cbv zeta. unfold get_parent_ids, lnot.
  cbn [first_parental_index nodes fst snd Z.eqb]. rewrite Hfront, Hg, Ho.
  rewrite !consecutive_nth by lia.
  split; [f_equal; lia|]. split; [f_equal; lia|].
  split; apply in_or_app; right;
    apply (in_map (fun oi => make_node oi (generation t) 0));
    eapply nth_error_In.
  - rewrite (consecutive_nth _ _ (2 * p)) by lia. f_equal. lia.
  - rewrite (consecutive_nth _ _ (2 * p + 1)) by lia. f_equal. lia.
Qed.

Lemma offspring_become_parents_witness :
  forallb in_generation [GetNextIndexes; GetNextIndexes] = true /\
  (1 <= allocations [GetNextIndexes; GetNextIndexes])%nat /\
  offspring_indexes (new_ancestry_tracker 1) = [] /\
  exists t1 ids t',
    run (new_ancestry_tracker 1) [GetNextIndexes; GetNextIndexes] = Some (t1, ids) /\
    finish_generation t1 = Some t' /\
    nth_error ids 2 = Some (fst (get_parent_ids t' 1 0)).
Proof.
  assert (Hb : forallb in_generation [GetNextIndexes; GetNextIndexes] = true)
    by reflexivity.
  assert (Hk : (1 <= allocations [GetNextIndexes; GetNextIndexes])%nat)
    by (vm_compute; lia).
  assert (He : offspring_indexes (new_ancestry_tracker 1) = []) by reflexivity.
  split; [exact Hb|]. split; [exact Hk|]. split; [exact He|].
  destruct (offspring_become_parents (new_ancestry_tracker 1)
              [GetNextIndexes; GetNextIndexes] Hb Hk He)
    as [t1 [ids [t' [Hrun [Hfin Hp]]]]].
  exists t1, ids, t'. split; [exact Hrun|]. split; [exact Hfin|].
  assert (H1 : (1 < allocations [GetNextIndexes; GetNextIndexes])%nat)
    by (vm_compute; lia).
  exact (proj1 (Hp 1%nat H1)).
Defined.

(** ** The last simplification *)

Lemma run_app_inv (cs1 cs2 : list call) :
  forall t t' out,
    run t (cs1 ++ cs2) = Some (t', out) ->
    exists t1 o1 o2,
      run t cs1 = Some (t1, o1) /\ run t1 cs2 = Some (t', o2) /\ out = o1 ++ o2.
Proof.
  induction cs1 as [|c cs1 IH]; intros t t' out Hrun.
  - exists t, [], out. repeat split. exact Hrun.
  - cbn [app] in Hrun.
    destruct (run_cons _ _ _ _ _ Hrun) as [t1 [o1 [o2 [Hstep [Hrest ->]]]]].
    destruct (IH _ _ _ Hrest) as [t2 [o3 [o4 [H1 [H2 ->]]]]].
    exists t2, (o1 ++ o3), o4. cbn [run]. rewrite Hstep, H1.
    split; [reflexivity|]. split; [exact H2 | now rewrite app_assoc].
Qed.

Lemma generation_after_run (cs : list call) :
  forall t t' out,
    run t cs = Some (t', out) ->
    generation t' = generation t + Z.of_nat (finishes cs).
Proof.
  induction cs as [|c cs IH]; intros t t' out Hrun.
  - injection Hrun as <- <-. cbn. lia.
  - destruct (run_cons _ _ _ _ _ Hrun) as [t1 [o1 [o2 [Hstep [Hrest _]]]]].
    rewrite (IH _ _ _ Hrest).
    destruct (step_effect _ _ _ _ Hstep) as [-> _].
    unfold finishes. cbn [filter]. destruct (is_finish c); cbn [length]; lia.
Qed.

Lemma last_gc_time_kept (cs : list call) :
  forall t t' out,
    existsb is_reset cs = false -> run t cs = Some (t', out) ->
    last_gc_time t' = last_gc_time t.
Proof.
  induction cs as [|c cs IH]; intros t t' out Hnr Hrun.
  - now injection Hrun as <- <-.
  - cbn [existsb] in Hnr. apply orb_false_elim in Hnr. destruct Hnr as [Hc Hcs].
    destruct (run_cons _ _ _ _ _ Hrun) as [t1 [o1 [o2 [Hstep [Hrest _]]]]].
    rewrite (IH _ _ _ Hcs Hrest). clear - Hc Hstep.
    step_cases c Hstep; try reflexivity.
    + now destruct (finish_generation_inv _ _ Hfin) as [f [r [_ ->]]].
    + now destruct (prep_for_gc_frame t) as [_ [_ [_ [_ [_ [_ [_ ->]]]]]]].
    + destruct gc; [discriminate Hc | reflexivity].
Qed.

(** X16.  [last_gc_time] remembers when the store was last reset.  In a
    simulation it is 0 until the first true-flagged [post_process_gc];
    afterwards it is the generation counter as it stood at the latest
    such call, that is one plus the number of generations finished before
    it, and so never ahead of the current counter. *)
Theorem last_gc_time_marks_reset (N : integer_type) (cs1 cs2 : list call)
    (X : integer_type) (t : ancestry_tracker) (out : list integer_type) :
  existsb is_reset cs2 = false ->
  (run (new_ancestry_tracker N) cs2 = Some (t, out) -> last_gc_time t = 0) /\
  (run (new_ancestry_tracker N) (cs1 ++ PostProcessGc true X :: cs2)
     = Some (t, out) ->
   last_gc_time t = 1 + Z.of_nat (finishes cs1) /\
   generation t = last_gc_time t + Z.of_nat (finishes cs2)).
Proof.
  intros Hnr. split.
  - intros Hrun. now rewrite (last_gc_time_kept cs2 _ _ _ Hnr Hrun).
  - intros Hrun.
    destruct (run_app_inv _ _ _ _ _ Hrun) as [t1 [o1 [o2 [H1 [H2 _]]]]].
    destruct (run_cons _ _ _ _ _ H2) as [t2 [o3 [o4 [Hstep [H3 _]]]]].
    cbn [step post_process_gc negb] in Hstep. injection Hstep as <- <-.
    rewrite (last_gc_time_kept cs2 _ _ _ Hnr H3).
    rewrite (generation_after_run cs2 _ _ _ H3).
    cbn [last_gc_time generation].
    rewrite (generation_after_run cs1 _ _ _ H1). cbn [generation new_ancestry_tracker].
    split; reflexivity.
Qed.

Lemma last_gc_time_marks_reset_witness :
  existsb is_reset [GetNextIndexes; FinishGeneration] = false /\
  exists t,
    run (new_ancestry_tracker 1)
        ([GetNextIndexes; FinishGeneration; PrepForGc]
           ++ PostProcessGc true 2 :: [GetNextIndexes; FinishGeneration])
      = Some (t, [2; 3; 2; 3]) /\
    last_gc_time t = 1 + 1 /\
    generation t = last_gc_time t + 1.
Proof.
  assert (Hnr : existsb is_reset [GetNextIndexes; FinishGeneration] = false)
    by reflexivity.
  split; [exact Hnr|]. eexists. split; [vm_compute; reflexivity|].
  exact (proj2 (last_gc_time_marks_reset 1
                  [GetNextIndexes; FinishGeneration; PrepForGc]
                  [GetNextIndexes; FinishGeneration] 2 _ _ Hnr) eq_refl).
Defined.

(** ** The span recorded at the end of a generation *)

(** X17.  [lastN] after a finished generation is not the number of
    offspring: it is [next_index] minus the anchor the generation started
    with, reduced modulo [2^32].  For the first generation after
    construction for [N] diploids, with [k >= 1] pairs allocated, that is
    [2N + 2k] modulo [2^32], founders and offspring together. *)
Theorem lastN_spans_parents_and_offspring (N : integer_type) (cs : list call) :
  forallb in_generation cs = true ->
  (1 <= allocations cs)%nat ->
  exists t1 ids t',
    run (new_ancestry_tracker N) cs = Some (t1, ids) /\
    finish_generation t1 = Some t' /\
    lastN t' = (2 * N + 2 * Z.of_nat (allocations cs)) mod 2 ^ 32 /\
    0 <= lastN t' < 2 ^ 32.
Proof.
  intros Hcs Hk.
  destruct (run_in_generation cs (new_ancestry_tracker N) Hcs)
    as [t1 [Hrun [_ [_ [_ [Ho [Hx Hf]]]]]]].
  assert (Hne : offspring_indexes t1 <> []).
  { rewrite Ho. cbn [offspring_indexes new_ancestry_tracker app].
    destruct (allocations cs) as [|k]; [lia|]. rewrite consecutive_pair.
    discriminate. }
  destruct (finish_generation_nonempty t1 Hne) as [f [r [_ Hfin]]].
  exists t1. eexists. eexists. split; [exact Hrun|]. split; [exact Hfin|].
  cbn [lastN]. rewrite Hx, Hf. cbn [next_index first_parental_index
                                    new_ancestry_tracker].
  unfold to_uint32. rewrite Z.sub_0_r. split; [reflexivity|].
  apply Z.mod_pos_bound. lia.
Qed.

Lemma lastN_spans_parents_and_offspring_witness :
  forallb in_generation [GetNextIndexes; GetNextIndexes; GetNextIndexes] = true /\
  (1 <= allocations [GetNextIndexes; GetNextIndexes; GetNextIndexes])%nat /\
  exists t1 ids t',
    run (new_ancestry_tracker 2) [GetNextIndexes; GetNextIndexes; GetNextIndexes]
      = Some (t1, ids) /\
    finish_generation t1 = Some t' /\
    lastN t' = 10.
Proof.
  assert (Hb : forallb in_generation
                 [GetNextIndexes; GetNextIndexes; GetNextIndexes] = true)
    by reflexivity.
  assert (Hk : (1 <= allocations
                      [GetNextIndexes; GetNextIndexes; GetNextIndexes])%nat)
    by (vm_compute; lia).
  split; [exact Hb|]. split; [exact Hk|].
  destruct (lastN_spans_parents_and_offspring 2
              [GetNextIndexes; GetNextIndexes; GetNextIndexes] Hb Hk)
    as [t1 [ids [t' [Hrun [Hfin [HlastN _]]]]]].
  exists t1, ids, t'. split; [exact Hrun|]. split; [exact Hfin|]. exact HlastN.
Defined.

(** ** The node store only grows *)

Lemma nodes_appended_step (t t' : ancestry_tracker) (c : call)
    (out : list integer_type) :
  is_reset c = false -> is_prep c = false -> step t c = Some (t', out) ->
  exists ns,
    nodes t' = nodes t ++ ns /\
    Forall (fun n => Node.population n = 0 /\
                     generation t <= Node.generation n < generation t') ns.
Proof.
  intros Hr Hp Hstep. step_cases c Hstep; try discriminate Hp.
  - exists []. cbn. now rewrite app_nil_r.
  - exists []. cbn. now rewrite app_nil_r.
  - destruct (finish_generation_inv _ _ Hfin) as [f [r [_ ->]]].
    eexists. cbn [nodes generation]. split; [reflexivity|].
    apply Forall_forall. intros n Hn. apply in_map_iff in Hn.
    destruct Hn as [i [<- _]]. cbn. lia.
  - destruct gc; [discriminate Hr|]. exists []. cbn. now rewrite app_nil_r.
Qed.

(** X18.  Outside [prep_for_gc] and a reset, nothing rewrites or removes
    a stored node: after any run of the other calls the node store is the
    old store followed by the nodes the run appended, each of population
    0 and stamped with a generation counter value the run went through. *)
Theorem nodes_append_only (cs : list call) :
  forall t t' out,
    existsb is_reset cs = false ->
    existsb is_prep cs = false ->
    run t cs = Some (t', out) ->
    exists ns,
      nodes t' = nodes t ++ ns /\
      Forall (fun n => Node.population n = 0 /\
                       generation t <= Node.generation n < generation t') ns.
Proof.
  induction cs as [|c cs IH]; intros t t' out Hnr Hnp Hrun.
  - injection Hrun as <- <-. exists []. split; [now rewrite app_nil_r | constructor].
  - cbn [existsb] in Hnr, Hnp.
    apply orb_false_elim in Hnr. destruct Hnr as [Hr Hnr].
    apply orb_false_elim in Hnp. destruct Hnp as [Hp Hnp].
    destruct (run_cons _ _ _ _ _ Hrun) as [t1 [o1 [o2 [Hstep [Hrest _]]]]].
    destruct (nodes_appended_step _ _ _ _ Hr Hp Hstep) as [ns1 [Hn1 Hb1]].
    destruct (IH _ _ _ Hnr Hnp Hrest) as [ns2 [Hn2 Hb2]].
    pose proof (generation_after_run cs _ _ _ Hrest) as Hg2.
    destruct (step_effect _ _ _ _ Hstep) as [Hg1 _].
    exists (ns1 ++ ns2). split; [rewrite Hn2, Hn1, app_assoc; reflexivity|].
    apply Forall_app. split.
    + eapply Forall_impl; [|exact Hb1]. cbv beta. intros n [Hpop Hgen].
      split; [exact Hpop | lia].
    + eapply Forall_impl; [|exact Hb2]. cbv beta. intros n [Hpop Hgen].
      split; [exact Hpop|]. destruct (is_finish c); lia.
Qed.

Lemma nodes_append_only_witness :
  exists t' ns,
    run (new_ancestry_tracker 1)
        [GetNextIndexes; FinishGeneration; PostProcessGc false 7]
      = Some (t', [2; 3]) /\
    nodes t' = nodes (new_ancestry_tracker 1) ++ ns /\
    Forall (fun n => Node.population n = 0 /\ 1 <= Node.generation n < 2) ns.
Proof.
  eexists.
  destruct (nodes_append_only
              [GetNextIndexes; FinishGeneration; PostProcessGc false 7]
              (new_ancestry_tracker 1) _ _ eq_refl eq_refl eq_refl)
    as [ns [Hn Hb]].
  exists ns. split; [vm_compute; reflexivity|]. split; [exact Hn | exact Hb].
Defined.
